(** * Siamese FEC tools: PCGRandom, LightVector and WindowedMinMax

    A shallow embedding of [SiameseTools.h] and the properties of its three
    classes.  Machine integers are mathematical integers with the wrap-around
    of the C++ type written out: [uint64_t] and [TimeT] wrap modulo 2^64,
    [uint32_t] and [unsigned] modulo 2^32. *)

From Stdlib Require Import ZArith Lia Bool List.
From stdpp Require Import base option list gmap.

Local Open Scope Z_scope.

(** ** Machine integers *)

Definition wrap32 (z : Z) : Z := z mod 2^32.
Definition wrap64 (z : Z) : Z := z mod 2^64.

Definition is_uint32 (z : Z) : Prop := 0 <= z < 2^32.
Definition is_uint64 (z : Z) : Prop := 0 <= z < 2^64.

(** ** PCG PRNG *)

Module PCGRandom.

(** [uint64_t State = 0, Inc = 0;] *)
Record PCGRandom : Type := mkPCG { State : Z; Inc : Z }.

Definition fresh : PCGRandom := mkPCG 0 0.

Definition kMultiplier : Z := 6364136223846793005.

(** [uint32_t Next()]: the new generator and the returned word. *)
Definition Next (g : PCGRandom) : PCGRandom * Z :=
  let oldstate := State g in
  let g' := mkPCG (wrap64 (oldstate * kMultiplier + Inc g)) (Inc g) in
  let xorshifted := wrap32 (Z.shiftr (Z.lxor (Z.shiftr oldstate 18) oldstate) 27) in
  let rot := wrap32 (Z.shiftr oldstate 59) in
  (g', Z.lor (Z.shiftr xorshifted rot)
             (wrap32 (Z.shiftl xorshifted (Z.land (wrap32 (- rot)) 31)))).

(** [void Seed(uint64_t y, uint64_t x = 0)] *)
Definition Seed (g : PCGRandom) (y x : Z) : PCGRandom :=
  let g1 := mkPCG 0 (Z.lor (wrap64 (Z.shiftl y 1)) 1) in
  let g2 := fst (Next g1) in
  let g3 := mkPCG (wrap64 (State g2 + x)) (Inc g2) in
  fst (Next g3).

(** The first [k] results of [Next()] called in a row. *)
Fixpoint outputs (k : nat) (g : PCGRandom) : list Z :=
  match k with
  | O => []
  | S k' => let (g', r) := Next g in r :: outputs k' g'
  end.

(** The generator after [k] calls of [Next()]. *)
Fixpoint skip (k : nat) (g : PCGRandom) : PCGRandom :=
  match k with
  | O => g
  | S k' => skip k' (fst (Next g))
  end.

(** The result of the [k]-th call of [Next()] (counting from 0). *)
Definition nth_output (k : nat) (g : PCGRandom) : Z := snd (Next (skip k g)).

(** The inverse of [kMultiplier] modulo 2^64. *)
Definition kInverse : Z := 13877824140714322085.

End PCGRandom.

(** ** LightVector *)

Module LightVector.

(** [static const unsigned kPreallocated = 25] *)
Definition kPreallocated : Z := 25.

(** A [T*] that the class can hold: the address of its own
    [PreallocatedData[0]], or the start of an array made by [new T[n]],
    named by the serial number of the [new] call that made it. *)
Inductive pointer : Type :=
| PreallocatedPtr
| HeapPtr (b : nat).

Definition pointer_eqb (p q : pointer) : bool :=
  match p, q with
  | PreallocatedPtr, PreallocatedPtr => true
  | HeapPtr a, HeapPtr b => Nat.eqb a b
  | _, _ => false
  end.

Section Elements.

(** The element type, copied with [memcpy] and by assignment.  A storage
    element is [Some x] once [x] has been written to it and [None] while
    it is uninitialized. *)
Context {T : Type}.

Record LightVector : Type := mkLightVector {
  PreallocatedData : list (option T);
  Size : Z;
  DataPtr : pointer;
  Allocated : Z
}.

(** The free store: the arrays that are alive, and the number of
    [new T[n]] calls made so far. *)
Record Heap : Type := mkHeap {
  blocks : gmap nat (list (option T));
  news : nat
}.

(** The object and the free store it allocates from. *)
Definition World : Type := LightVector * Heap.

(** What a member function does to the world: it returns, or it runs
    into undefined behaviour (a copy or a store outside an array, a
    [delete[]] of an array that is not alive). *)
Inductive outcome (A : Type) : Type :=
| Returns (a : A) (w : World)
| Undefined.
Arguments Returns {A} a w.
Arguments Undefined {A}.

Definition M (A : Type) : Type := World -> outcome A.

Definition ret {A} (a : A) : M A := fun w => Returns a w.

Definition bind {A B} (m : M A) (k : A -> M B) : M B :=
  fun w => match m w with
           | Returns a w' => k a w'
           | Undefined => Undefined
           end.

Notation "x <- m ;; k" := (bind m (fun x => k))
  (at level 100, m at next level, right associativity).
Notation "m ;;; k" := (bind m (fun _ => k))
  (at level 100, right associativity).

Definition this : M LightVector := fun w => Returns (fst w) w.

Definition set_Size (n : Z) : M unit := fun w =>
  let v := fst w in
  Returns tt (mkLightVector (PreallocatedData v) n (DataPtr v) (Allocated v), snd w).

Definition set_DataPtr (p : pointer) : M unit := fun w =>
  let v := fst w in
  Returns tt (mkLightVector (PreallocatedData v) (Size v) p (Allocated v), snd w).

Definition set_Allocated (n : Z) : M unit := fun w =>
  let v := fst w in
  Returns tt (mkLightVector (PreallocatedData v) (Size v) (DataPtr v) n, snd w).

(** The array a pointer refers to, when there is one. *)
Definition load (p : pointer) (w : World) : option (list (option T)) :=
  match p with
  | PreallocatedPtr => Some (PreallocatedData (fst w))
  | HeapPtr b => blocks (snd w) !! b
  end.

Definition write (p : pointer) (l : list (option T)) (w : World) : World :=
  let v := fst w in
  match p with
  | PreallocatedPtr =>
      (mkLightVector l (Size v) (DataPtr v) (Allocated v), snd w)
  | HeapPtr b => (v, mkHeap (<[b := l]> (blocks (snd w))) (news (snd w)))
  end.

(** What a [const T&] argument refers to: an object outside the vector,
    given by its value, or the element [p[index]] of one of the vector's
    arrays, as [GetRef] returns it. *)
Inductive reference : Type :=
| external (x : T)
| element (p : pointer) (index : Z).

(** Reading through a [const T&]: the value of the object referred to.
    Undefined when the array is no longer alive (a dangling reference),
    when the index is outside it, or when the element is uninitialized. *)
Definition read (r : reference) : M T := fun w =>
  match r with
  | external x => Returns x w
  | element p index =>
      match load p w with
      | Some l =>
          if 0 <=? index then
            match l !! Z.to_nat index with
            | Some (Some x) => Returns x w
            | _ => Undefined
            end
          else Undefined
      | None => Undefined
      end
  end.

Section Allocator.

(** Whether the free store grants the [k]-th [new] call, which asks for
    [n] elements.  Every behaviour of a real allocator on one run is
    such a function. *)
Variable grant : nat -> Z -> bool.

(** [new(std::nothrow) T[n]]: a fresh array of [n] uninitialized
    elements, or the null pointer ([None]). *)
Definition nothrow_new (n : Z) : M (option pointer) := fun w =>
  let h := snd w in
  if grant (news h) n then
    Returns (Some (HeapPtr (news h)))
            (fst w, mkHeap (<[news h := replicate (Z.to_nat n) None]> (blocks h))
                           (S (news h)))
  else
    Returns None (fst w, mkHeap (blocks h) (S (news h))).

(** [delete[] p] *)
Definition delete_array (p : pointer) : M unit := fun w =>
  match p with
  | PreallocatedPtr => Undefined
  | HeapPtr b =>
      match blocks (snd w) !! b with
      | Some _ => Returns tt (fst w, mkHeap (delete b (blocks (snd w))) (news (snd w)))
      | None => Undefined
      end
  end.

(** [memcpy(dst, src, sizeof(T) * n)] *)
Definition memcpy (dst src : pointer) (n : Z) : M unit := fun w =>
  match load dst w, load src w with
  | Some d, Some s =>
      if (n <=? Z.of_nat (length d)) && (n <=? Z.of_nat (length s)) then
        Returns tt (write dst (take (Z.to_nat n) s ++ drop (Z.to_nat n) d) w)
      else Undefined
  | _, _ => Undefined
  end.

(** [p[index] = rhs] *)
Definition store (p : pointer) (index : Z) (rhs : T) : M unit := fun w =>
  match load p w with
  | Some l =>
      if (0 <=? index) && (index <? Z.of_nat (length l)) then
        Returns tt (write p (<[Z.to_nat index := Some rhs]> l) w)
      else Undefined
  | None => Undefined
  end.

(** [LightVector()]: [DataPtr = &PreallocatedData[0]], the other
    members from their initializers. *)
Definition constructed : LightVector :=
  mkLightVector (replicate (Z.to_nat kPreallocated) None) 0
                PreallocatedPtr kPreallocated.

(** A newly constructed vector and a free store nothing was taken
    from. *)
Definition fresh : World := (constructed, mkHeap ∅ 0).

(** [bool SetSize_NoCopy(unsigned elements)] *)
Definition SetSize_NoCopy (elements : Z) : M bool :=
  v <- this ;;
  if elements >? Allocated v then
    let newAllocated := wrap32 (elements * 3) / 2 in
    newData <- nothrow_new newAllocated ;;
    match newData with
    | None => ret false
    | Some newData =>
        let oldData := DataPtr v in
        set_Allocated newAllocated ;;;
        set_DataPtr newData ;;;
        (if pointer_eqb oldData PreallocatedPtr then ret tt
         else delete_array oldData) ;;;
        set_Size elements ;;;
        ret true
    end
  else
    set_Size elements ;;;
    ret true.

(** [bool SetSize_Copy(unsigned elements)] *)
Definition SetSize_Copy (elements : Z) : M bool :=
  v <- this ;;
  if elements >? Allocated v then
    let newAllocated := wrap32 (elements * 3) / 2 in
    newData <- nothrow_new newAllocated ;;
    match newData with
    | None => ret false
    | Some newData =>
        let oldData := DataPtr v in
        set_Allocated newAllocated ;;;
        set_DataPtr newData ;;;
        memcpy newData oldData (Size v) ;;;
        (if pointer_eqb oldData PreallocatedPtr then ret tt
         else delete_array oldData) ;;;
        set_Size elements ;;;
        ret true
    end
  else
    set_Size elements ;;;
    ret true.

(** [bool Append(const T& rhs)]: [rhs] is read after [SetSize_Copy] has
    returned, in [DataPtr[newSize - 1] = rhs]. *)
Definition Append (rhs : reference) : M bool :=
  v <- this ;;
  let newSize := wrap32 (Size v + 1) in
  ok <- SetSize_Copy newSize ;;
  if negb ok then ret false
  else
    v' <- this ;;
    x <- read rhs ;;
    store (DataPtr v') (wrap32 (newSize - 1)) x ;;;
    ret true.

(** [void Clear()] *)
Definition Clear : M unit := set_Size 0.

(** [Append] for each value of a list in turn, until one fails; the
    values are objects outside the vector. *)
Fixpoint append_all (xs : list T) : M bool :=
  match xs with
  | [] => ret true
  | x :: xs' =>
      ok <- Append (external x) ;;
      if ok then append_all xs' else ret false
  end.

(** A call of one of the member functions that change the vector;
    [Clear] returns nothing and cannot fail, which [perform] records as
    [true]. *)
Inductive call : Type :=
| call_SetSize_NoCopy (elements : Z)
| call_SetSize_Copy (elements : Z)
| call_Append (rhs : reference)
| call_Clear.

Definition perform (c : call) : M bool :=
  match c with
  | call_SetSize_NoCopy elements => SetSize_NoCopy elements
  | call_SetSize_Copy elements => SetSize_Copy elements
  | call_Append rhs => Append rhs
  | call_Clear => Clear ;;; ret true
  end.

(** The size a call asks for. *)
Definition requested (c : call) (w : World) : Z :=
  match c with
  | call_SetSize_NoCopy elements => elements
  | call_SetSize_Copy elements => elements
  | call_Append _ => Size (fst w) + 1
  | call_Clear => 0
  end.

End Allocator.

(** [unsigned GetSize() const] *)
Definition GetSize (w : World) : Z := Size (fst w).

(** The array [DataPtr] refers to. *)
Definition data (w : World) : option (list (option T)) :=
  load (DataPtr (fst w)) w.

(** [T& GetRef(int index) const], read: the element, or [None] where
    [DataPtr[index]] is outside the array. *)
Definition GetRef (index : Z) (w : World) : option (option T) :=
  if index <? 0 then None
  else l ← data w; l !! Z.to_nat index.

(** The allocator that grants every request. *)
Definition always : nat -> Z -> bool := fun _ _ => true.

(** The allocator that refuses every request. *)
Definition never : nat -> Z -> bool := fun _ _ => false.

(** The number of [new] calls between two worlds. *)
Definition allocations (w w' : World) : Z :=
  Z.of_nat (news (snd w')) - Z.of_nat (news (snd w)).

(** The world with [Size] set to [n]. *)
Definition with_Size (n : Z) (w : World) : World :=
  (mkLightVector (PreallocatedData (fst w)) n (DataPtr (fst w))
                 (Allocated (fst w)), snd w).

(** The vector holds exactly the values [xs], in order. *)
Definition stored (xs : list T) (w : World) : Prop :=
  Size (fst w) = Z.of_nat (length xs) /\
  exists l, data w = Some l /\ take (length xs) l = Some <$> xs.

(** The class invariant the debug assertion checks, with the shape of
    the storage: [Size <= Allocated], [DataPtr] is the preallocated
    array or the one array alive on the free store, and that array has
    [Allocated] elements. *)
Definition well_formed (w : World) : Prop :=
  let v := fst w in
  0 <= Size v <= Allocated v /\
  Z.of_nat (length (PreallocatedData v)) = kPreallocated /\
  match DataPtr v with
  | PreallocatedPtr => Allocated v = kPreallocated /\ blocks (snd w) = ∅
  | HeapPtr b =>
      (b < news (snd w))%nat /\
      exists l, blocks (snd w) = {[ b := l ]} /\
                Z.of_nat (length l) = Allocated v
  end.

(** The capacity [Append] asks for when the vector is full at capacity
    [c]: [newAllocated] for [elements = c + 1]. *)
Definition grown_capacity (c : Z) : Z := wrap32 ((c + 1) * 3) / 2.

(** The reference [r] refers to an initialized object of value [x]. *)
Definition reads (r : reference) (x : T) (w : World) : Prop :=
  match r with
  | external y => y = x
  | element p index =>
      0 <= index /\
      exists l, load p w = Some l /\ l !! Z.to_nat index = Some (Some x)
  end.

(** The object [r] refers to is still there when [Append] reads it: it is
    outside the vector, or in the preallocated array, which is never
    released, or no array is released because the vector has spare
    capacity. *)
Definition survives_growth (r : reference) (w : World) : Prop :=
  match r with
  | external _ => True
  | element p _ =>
      p = PreallocatedPtr \/ Size (fst w) + 1 <= Allocated (fst w)
  end.

(** The argument of a call, if it has one, can be read when the call reads
    it. *)
Definition argument_survives (c : call) (w : World) : Prop :=
  match c with
  | call_Append r => (exists x, reads r x w) /\ survives_growth r w
  | _ => True
  end.

(** The world after a refused [new]: only the count of calls differs. *)
Definition refused (w : World) : World :=
  (fst w, mkHeap (blocks (snd w)) (S (news (snd w)))).

(** What a successful call asking for [elements] has done. *)
Definition resized (elements : Z) (w w' : World) : Prop :=
  well_formed w' /\
  Size (fst w') = elements /\
  Allocated (fst w) <= Allocated (fst w') /\
  (DataPtr (fst w) <> PreallocatedPtr -> DataPtr (fst w') <> PreallocatedPtr) /\
  allocations w w' = (if elements >? Allocated (fst w) then 1 else 0) /\
  (Allocated (fst w) < elements -> Allocated (fst w') = elements * 3 / 2).

(** The elements below the old [Size] have the values they had. *)
Definition keeps_elements (w w' : World) : Prop :=
  exists old new,
    data w = Some old /\ data w' = Some new /\
    take (Z.to_nat (Size (fst w))) new = take (Z.to_nat (Size (fst w))) old.

(** What a call asking for [req] elements does to the free store: it calls
    [new] only when [req] exceeds the capacity, then for [req * 3 / 2]
    elements, and succeeds exactly when that is granted. *)
Definition on_demand (grant : nat -> Z -> bool) (req : Z) (w : World) (o : outcome bool) : Prop :=
  exists ok w',
    o = Returns ok w' /\
    allocations w w' = (if req >? Allocated (fst w) then 1 else 0) /\
    (req <= Allocated (fst w) ->
       ok = true /\ Allocated (fst w') = Allocated (fst w) /\
       DataPtr (fst w') = DataPtr (fst w)) /\
    (Allocated (fst w) < req ->
       ok = grant (news (snd w)) (req * 3 / 2) /\
       (ok = true ->
          Allocated (fst w') = req * 3 / 2 /\
          DataPtr (fst w') = HeapPtr (news (snd w)))).

End Elements.

Arguments LightVector T : clear implicits.
Arguments Heap T : clear implicits.
Arguments World T : clear implicits.
Arguments call T : clear implicits.
Arguments reference T : clear implicits.
Arguments outcome T A : clear implicits.
Arguments Returns {T A} a w.
Arguments Undefined {T A}.

End LightVector.

(** ** WindowedMinMax *)

Module WindowedMinMax.

(** The two comparison policies, [WindowedMinCompare] and
    [WindowedMaxCompare]; the sample type [T] is an integer type. *)
Inductive CompareT : Type := WindowedMinCompare | WindowedMaxCompare.

Definition Compare (c : CompareT) (x y : Z) : bool :=
  match c with
  | WindowedMinCompare => x <=? y
  | WindowedMaxCompare => x >=? y
  end.

Record Sample : Type := mkSample { Value : Z; Timestamp : Z }.

(** [Sample()]: default values. *)
Definition Sample0 : Sample := mkSample 0 0.

(** [(TimeT)(now - Timestamp) > timeout] *)
Definition TimeoutExpired (s : Sample) (now timeout : Z) : bool :=
  wrap64 (now - Timestamp s) >? timeout.

(** [Sample Samples[kSampleCount]] with [kSampleCount = 3]. *)
Record WindowedMinMax : Type := mkWMM {
  Samples0 : Sample;
  Samples1 : Sample;
  Samples2 : Sample
}.

Definition initial : WindowedMinMax := mkWMM Sample0 Sample0 Sample0.

Definition IsValid (st : WindowedMinMax) : bool :=
  negb (Value (Samples0 st) =? 0).

Definition GetBest (st : WindowedMinMax) : Z := Value (Samples0 st).

Definition Reset (sample : Sample) : WindowedMinMax :=
  mkWMM sample sample sample.

(** The test that opens [Update]. *)
Definition reset_branch (c : CompareT) (st : WindowedMinMax)
    (value timestamp windowLengthTime : Z) : bool :=
  negb (IsValid st)
  || Compare c value (Value (Samples0 st))
  || TimeoutExpired (Samples2 st) timestamp windowLengthTime.

(** "Insert the new value into the sorted array". *)
Definition insert_sample (c : CompareT) (st : WindowedMinMax)
    (sample : Sample) : WindowedMinMax :=
  if Compare c (Value sample) (Value (Samples1 st)) then
    mkWMM (Samples0 st) sample sample
  else if Compare c (Value sample) (Value (Samples2 st)) then
    mkWMM (Samples0 st) (Samples1 st) sample
  else st.

(** "Expire best if it has been the best for a long time": the body of
    that [if], which ends in [return]. *)
Definition expire_best (st : WindowedMinMax) (sample : Sample)
    (windowLengthTime : Z) : WindowedMinMax :=
  if TimeoutExpired (Samples1 st) (Timestamp sample) windowLengthTime then
    mkWMM (Samples2 st) sample sample
  else
    mkWMM (Samples1 st) (Samples2 st) sample.

(** The quarter-window and half-window rules that close [Update]. *)
Definition age_backups (st : WindowedMinMax) (sample : Sample)
    (windowLengthTime : Z) : WindowedMinMax :=
  if (Value (Samples1 st) =? Value (Samples0 st))
     && TimeoutExpired (Samples1 st) (Timestamp sample) (windowLengthTime / 4)
  then mkWMM (Samples0 st) sample sample
  else if (Value (Samples2 st) =? Value (Samples1 st))
          && TimeoutExpired (Samples2 st) (Timestamp sample) (windowLengthTime / 2)
  then mkWMM (Samples0 st) (Samples1 st) sample
  else st.

Definition Update (c : CompareT) (st : WindowedMinMax)
    (value timestamp windowLengthTime : Z) : WindowedMinMax :=
  let sample := mkSample value timestamp in
  if reset_branch c st value timestamp windowLengthTime then Reset sample
  else
    let st1 := insert_sample c st sample in
    if TimeoutExpired (Samples0 st1) timestamp windowLengthTime then
      expire_best st1 sample windowLengthTime
    else
      age_backups st1 sample windowLengthTime.

(** States reachable from the freshly constructed estimator. *)
Inductive reachable (c : CompareT) : WindowedMinMax -> Prop :=
| reach_initial : reachable c initial
| reach_Reset st sample :
    reachable c st -> reachable c (Reset sample)
| reach_Update st value timestamp windowLengthTime :
    reachable c st ->
    reachable c (Update c st value timestamp windowLengthTime).

(** A run of [Update] calls with one window length; each entry of the list
    is a [(value, timestamp)] pair. *)
Fixpoint run (c : CompareT) (w : Z) (st : WindowedMinMax)
    (us : list (Z * Z)) : WindowedMinMax :=
  match us with
  | [] => st
  | (v, t) :: us' => run c w (Update c st v t w) us'
  end.

(** Timestamps of a run that start at [t0] or later and never decrease;
    the result is the last timestamp. *)
Fixpoint nondecreasing_from (t0 : Z) (us : list (Z * Z)) : Prop :=
  match us with
  | [] => True
  | (_, t) :: us' => t0 <= t /\ nondecreasing_from t us'
  end.

Definition last_timestamp (t0 : Z) (us : list (Z * Z)) : Z :=
  fold_left (fun _ u => snd u) us t0.

(** The next-best value observed by a min-seeking estimator: the least of
    the values supplied after the small one. *)
Definition next_best_observed (x : Z) (xs : list Z) : Z :=
  fold_right Z.min x xs.

(** Every sample's timestamp lies between [lo] and [hi]. *)
Definition stamps_within (lo hi : Z) (st : WindowedMinMax) : Prop :=
  lo <= Timestamp (Samples0 st) <= hi /\
  lo <= Timestamp (Samples1 st) <= hi /\
  lo <= Timestamp (Samples2 st) <= hi.

(** A backup sample of an estimator that holds [(v, t0)] as its best: the
    best sample itself or one of the samples [seen] since, not older than
    [t0] and not newer than [tcur]. *)
Definition backup_of (v t0 : Z) (seen : list (Z * Z)) (tcur : Z)
    (s : Sample) : Prop :=
  (s = mkSample v t0 \/ In (Value s) (map fst seen)) /\
  t0 <= Timestamp s <= tcur.

Definition holds_best (v t0 : Z) (seen : list (Z * Z)) (tcur : Z)
    (st : WindowedMinMax) : Prop :=
  Samples0 st = mkSample v t0 /\
  backup_of v t0 seen tcur (Samples1 st) /\
  backup_of v t0 seen tcur (Samples2 st).

(** [best] at least as extreme as [second], [second] as [third]. *)
Definition ranked (c : CompareT) (st : WindowedMinMax) : Prop :=
  Compare c (Value (Samples0 st)) (Value (Samples1 st)) = true /\
  Compare c (Value (Samples1 st)) (Value (Samples2 st)) = true.

(** Each value of the run compares as extreme-or-equal to the one supplied
    before it, the first one to [v]. *)
Fixpoint improving_from (c : CompareT) (v : Z) (us : list (Z * Z)) : Prop :=
  match us with
  | [] => True
  | (x, _) :: us' => Compare c x v = true /\ improving_from c x us'
  end.

(** The last sample of a run that starts with [s]. *)
Definition last_sample (s : Sample) (us : list (Z * Z)) : Sample :=
  fold_left (fun _ u => mkSample (fst u) (snd u)) us s.

(** [s] was supplied in the run [us], and no value supplied after it
    compares as extreme-or-equal to it. *)
Definition recorded (c : CompareT) (us : list (Z * Z)) (s : Sample) : Prop :=
  exists pre post,
    us = pre ++ (Value s, Timestamp s) :: post /\
    Forall (fun u => Compare c (fst u) (Value s) = false) post.

(** The better a retained sample ranks, the older it is. *)
Definition stamps_ordered (st : WindowedMinMax) : Prop :=
  Timestamp (Samples0 st) <= Timestamp (Samples1 st) /\
  Timestamp (Samples1 st) <= Timestamp (Samples2 st).

(** The first sample of the run, if there is one, is stamped later than
    [bound]. *)
Definition starts_after (bound : Z) (us : list (Z * Z)) : Prop :=
  match us with
  | [] => True
  | (_, t1) :: _ => bound < t1
  end.

(** The samples of the run from the first one stamped later than [bound]
    on. *)
Fixpoint recorded_after (bound : Z) (us : list (Z * Z)) : list (Z * Z) :=
  match us with
  | [] => []
  | u :: rest => if snd u <=? bound then recorded_after bound rest else us
  end.

(** The first sample of the run, if there is one, is not older than [w]
    at time [t]. *)
Definition starts_within (t w : Z) (us : list (Z * Z)) : Prop :=
  match us with
  | [] => True
  | (_, t1) :: _ => t - t1 <= w
  end.

(** An estimator that holds [(v, t0)] as its best sample and, as its
    second, the least of the values [late], recorded at [t1] or later. *)
Definition tracks_least (v t0 t1 : Z) (late : list (Z * Z)) (tcur : Z)
    (st : WindowedMinMax) : Prop :=
  Samples0 st = mkSample v t0 /\
  (forall z, next_best_observed z (map fst late) = Z.min (Value (Samples1 st)) z) /\
  v < Value (Samples1 st) /\
  t1 <= Timestamp (Samples1 st) <= tcur /\
  t1 <= Timestamp (Samples2 st) <= tcur.

End WindowedMinMax.

(** * Properties *)

(** ** Machine integers *)

Lemma wrap64_small (z : Z) : 0 <= z < 2^64 -> wrap64 z = z.
Proof. intros Hz. unfold wrap64. apply Z.mod_small. exact Hz. Qed.

Lemma wrap64_zero : wrap64 0 = 0.
Proof. reflexivity. Qed.

Lemma wrap32_small (z : Z) : 0 <= z < 2^32 -> wrap32 z = z.
Proof. intros Hz. unfold wrap32. apply Z.mod_small. exact Hz. Qed.

Lemma wrap64_range (z : Z) : 0 <= wrap64 z < 2^64.
Proof. unfold wrap64. apply Z.mod_pos_bound. lia. Qed.

Lemma wrap32_range (z : Z) : 0 <= wrap32 z < 2^32.
Proof. unfold wrap32. apply Z.mod_pos_bound. lia. Qed.

(** Turn the boolean tests of the code into arithmetic facts. *)
Ltac bool_to_Z :=
  repeat match goal with
  | H : _ || _ = true |- _ => apply orb_true_iff in H; destruct H
  | H : _ || _ = false |- _ => apply orb_false_iff in H; destruct H
  | H : _ && _ = true |- _ => apply andb_true_iff in H; destruct H
  | H : _ && _ = false |- _ => apply andb_false_iff in H; destruct H
  | H : negb _ = true |- _ => apply negb_true_iff in H
  | H : negb _ = false |- _ => apply negb_false_iff in H
  | H : (_ <=? _) = true |- _ => apply Z.leb_le in H
  | H : (_ <=? _) = false |- _ => apply Z.leb_gt in H
  | H : (_ <? _) = true |- _ => apply Z.ltb_lt in H
  | H : (_ <? _) = false |- _ => apply Z.ltb_ge in H
  | H : (_ >=? _) = true |- _ => rewrite Z.geb_leb in H
  | H : (_ >=? _) = false |- _ => rewrite Z.geb_leb in H
  | H : (_ >? _) = true |- _ => rewrite Z.gtb_ltb in H
  | H : (_ >? _) = false |- _ => rewrite Z.gtb_ltb in H
  | H : (_ =? _) = true |- _ => apply Z.eqb_eq in H
  | H : (_ =? _) = false |- _ => apply Z.eqb_neq in H
  end.

(** ** LightVector *)

Module LightVectorSpec.
Import LightVector.

Section Elements.
Context {T : Type}.
Implicit Types (w : World T) (xs : list T) (grant : nat -> Z -> bool).

Lemma SetSize_NoCopy_within grant w elements :
  elements <= Allocated (fst w) ->
  SetSize_NoCopy grant elements w = Returns true (with_Size elements w).
Proof.
  intros H. unfold SetSize_NoCopy, bind, this.
  rewrite Z.gtb_ltb. destruct (Z.ltb_spec (Allocated (fst w)) elements); [lia|].
  reflexivity.
Qed.

Lemma SetSize_Copy_within grant w elements :
  elements <= Allocated (fst w) ->
  SetSize_Copy grant elements w = Returns true (with_Size elements w).
Proof.
  intros H. unfold SetSize_Copy, bind, this.
  rewrite Z.gtb_ltb. destruct (Z.ltb_spec (Allocated (fst w)) elements); [lia|].
  reflexivity.
Qed.

Lemma SetSize_NoCopy_refused grant w elements :
  Allocated (fst w) < elements ->
  grant (news (snd w)) (wrap32 (elements * 3) / 2) = false ->
  SetSize_NoCopy grant elements w = Returns false (refused w).
Proof.
  intros H Hg. unfold SetSize_NoCopy, bind, this.
  rewrite Z.gtb_ltb. destruct (Z.ltb_spec (Allocated (fst w)) elements); [|lia].
  unfold nothrow_new. rewrite Hg. reflexivity.
Qed.

Lemma SetSize_Copy_refused grant w elements :
  Allocated (fst w) < elements ->
  grant (news (snd w)) (wrap32 (elements * 3) / 2) = false ->
  SetSize_Copy grant elements w = Returns false (refused w).
Proof.
  intros H Hg. unfold SetSize_Copy, bind, this.
  rewrite Z.gtb_ltb. destruct (Z.ltb_spec (Allocated (fst w)) elements); [|lia].
  unfold nothrow_new. rewrite Hg. reflexivity.
Qed.

Lemma SetSize_NoCopy_granted grant w elements :
  well_formed w ->
  Allocated (fst w) < elements ->
  grant (news (snd w)) (wrap32 (elements * 3) / 2) = true ->
  SetSize_NoCopy grant elements w =
    Returns true
      (mkLightVector (PreallocatedData (fst w)) elements
                     (HeapPtr (news (snd w))) (wrap32 (elements * 3) / 2),
       mkHeap {[ news (snd w) :=
                   replicate (Z.to_nat (wrap32 (elements * 3) / 2)) None ]}
              (S (news (snd w)))).
Proof.
  intros (HS & HP & HD) H Hg. unfold SetSize_NoCopy, bind, this.
  rewrite Z.gtb_ltb. destruct (Z.ltb_spec (Allocated (fst w)) elements); [|lia].
  unfold nothrow_new. rewrite Hg.
  destruct w as [[pre sz ptr al] [bl n]]. simpl in *.
  destruct ptr as [| b]; simpl.
  - destruct HD as [_ ->]. rewrite insert_empty. reflexivity.
  - destruct HD as (Hb & l & -> & Hl).
    unfold delete_array. simpl.
    rewrite lookup_insert_ne by lia. rewrite lookup_singleton_eq.
    unfold set_Size, ret. simpl.
    rewrite delete_insert_ne by lia. rewrite delete_singleton_eq.
    rewrite insert_empty. reflexivity.
Qed.

Lemma well_formed_data w :
  well_formed w ->
  exists old, data w = Some old /\ Z.of_nat (length old) = Allocated (fst w).
Proof.
  intros (HS & HP & HD). unfold data, load.
  destruct (DataPtr (fst w)) as [| b].
  - destruct HD as [-> _]. eauto.
  - destruct HD as (_ & l & -> & Hl). rewrite lookup_singleton_eq. eauto.
Qed.

Lemma SetSize_Copy_granted grant w elements :
  well_formed w ->
  Allocated (fst w) < elements ->
  grant (news (snd w)) (wrap32 (elements * 3) / 2) = true ->
  Size (fst w) <= wrap32 (elements * 3) / 2 ->
  exists old,
    data w = Some old /\
    SetSize_Copy grant elements w =
      Returns true
        (mkLightVector (PreallocatedData (fst w)) elements
                       (HeapPtr (news (snd w))) (wrap32 (elements * 3) / 2),
         mkHeap {[ news (snd w) :=
                     take (Z.to_nat (Size (fst w))) old ++
                     drop (Z.to_nat (Size (fst w)))
                          (replicate (Z.to_nat (wrap32 (elements * 3) / 2)) None) ]}
                (S (news (snd w)))).
Proof.
  intros Hwf H Hg Hfit.
  destruct (well_formed_data w Hwf) as (old & Hold & Hlen).
  exists old. split; [exact Hold|].
  destruct Hwf as (HS & HP & HD).
  unfold SetSize_Copy, bind, this.
  rewrite Z.gtb_ltb. destruct (Z.ltb_spec (Allocated (fst w)) elements); [|lia].
  unfold nothrow_new. rewrite Hg.
  destruct w as [[pre sz ptr al] [bl n]]. simpl in *.
  unfold memcpy, data in *. simpl in *.
  rewrite lookup_insert_eq.
  destruct ptr as [| b]; simpl in *.
  - destruct HD as [_ ->]. inversion Hold; subst old.
    rewrite length_replicate.
    destruct (Z.leb_spec sz (Z.of_nat (Z.to_nat (wrap32 (elements * 3) / 2)))); [|lia].
    destruct (Z.leb_spec sz (Z.of_nat (length pre))); [|lia].
    simpl. rewrite insert_insert_eq, insert_empty. reflexivity.
  - destruct HD as (Hb & l & -> & Hl).
    rewrite lookup_insert_ne by lia. rewrite lookup_singleton_eq in *.
    inversion Hold; subst old.
    rewrite length_replicate.
    destruct (Z.leb_spec sz (Z.of_nat (Z.to_nat (wrap32 (elements * 3) / 2)))); [|lia].
    destruct (Z.leb_spec sz (Z.of_nat (length l))); [|lia].
    simpl. unfold delete_array. simpl.
    rewrite insert_insert_eq.
    rewrite lookup_insert_ne by lia. rewrite lookup_singleton_eq.
    unfold set_Size, ret. simpl.
    rewrite delete_insert_ne by lia. rewrite delete_singleton_eq.
    rewrite insert_empty. reflexivity.
Qed.

Lemma SetSize_Copy_overrun grant w elements :
  well_formed w ->
  Allocated (fst w) < elements ->
  grant (news (snd w)) (wrap32 (elements * 3) / 2) = true ->
  wrap32 (elements * 3) / 2 < Size (fst w) ->
  SetSize_Copy grant elements w = Undefined.
Proof.
  intros Hwf H Hg Hfit.
  destruct (well_formed_data w Hwf) as (old & Hold & Hlen).
  destruct Hwf as (HS & HP & HD).
  assert (0 <= wrap32 (elements * 3) / 2)
    by (apply Z.div_pos; [apply wrap32_range | lia]).
  unfold SetSize_Copy, bind, this.
  rewrite Z.gtb_ltb. destruct (Z.ltb_spec (Allocated (fst w)) elements); [|lia].
  unfold nothrow_new. rewrite Hg.
  destruct w as [[pre sz ptr al] [bl n]]. simpl in *.
  unfold memcpy, data in *. simpl in *.
  rewrite lookup_insert_eq.
  destruct ptr as [| b]; simpl in *.
  - rewrite length_replicate.
    destruct (Z.leb_spec sz (Z.of_nat (Z.to_nat (wrap32 (elements * 3) / 2)))); [lia|].
    reflexivity.
  - destruct HD as (Hb & l & -> & Hl).
    rewrite lookup_insert_ne by lia. rewrite lookup_singleton_eq in *.
    rewrite length_replicate.
    destruct (Z.leb_spec sz (Z.of_nat (Z.to_nat (wrap32 (elements * 3) / 2)))); [lia|].
    reflexivity.
Qed.


Lemma no_wrap elements :
  0 <= elements -> elements * 3 < 2^32 ->
  wrap32 (elements * 3) / 2 = elements * 3 / 2 /\ elements <= elements * 3 / 2.
Proof.
  intros H0 H3. rewrite wrap32_small by lia. split; [reflexivity|].
  apply Z.div_le_lower_bound; lia.
Qed.

Lemma SetSize_Copy_sound grant w elements :
  well_formed w -> 0 <= elements -> elements * 3 < 2^32 ->
  exists ok w',
    SetSize_Copy grant elements w = Returns ok w' /\
    (ok = false -> w' = refused w /\ Allocated (fst w) < elements) /\
    (ok = true -> resized elements w w' /\ keeps_elements w w').
Proof.
  intros Hwf H0 H3.
  destruct (no_wrap elements H0 H3) as [Hnw Hle].
  destruct (well_formed_data w Hwf) as (old & Hold & Hlen).
  pose proof Hwf as (HS & HP & HD).
  destruct (Z.le_gt_cases elements (Allocated (fst w))) as [Hin | Hout].
  - exists true, (with_Size elements w).
    split; [apply SetSize_Copy_within, Hin|].
    split; [discriminate|]. intros _. split.
    + unfold resized, allocations, with_Size. simpl.
      rewrite Z.gtb_ltb. destruct (Z.ltb_spec (Allocated (fst w)) elements); [lia|].
      repeat split; try lia; try tauto.
    + exists old, old. repeat split; assumption.
  - destruct (grant (news (snd w)) (wrap32 (elements * 3) / 2)) eqn:Hg.
    + destruct (SetSize_Copy_granted grant w elements Hwf Hout Hg)
        as (old' & Hold' & Hrun); [lia|].
      rewrite Hold in Hold'. inversion Hold'; subst old'.
      eexists true, _. split; [exact Hrun|].
      split; [discriminate|]. intros _. rewrite Hnw in *.
      assert (Hnew : Z.of_nat (length
                (take (Z.to_nat (Size (fst w))) old ++
                 drop (Z.to_nat (Size (fst w)))
                      (replicate (Z.to_nat (elements * 3 / 2)) (@None T))))
              = elements * 3 / 2).
      { rewrite length_app, length_take, length_drop, length_replicate. lia. }
      split.
      * unfold resized, allocations, well_formed. simpl.
        rewrite Z.gtb_ltb.
        destruct (Z.ltb_spec (Allocated (fst w)) elements); [|lia].
        repeat split; try lia; try discriminate.
        eexists. split; [reflexivity|]. exact Hnew.
      * eexists old, _. split; [exact Hold|].
        split; [unfold data; simpl; apply lookup_singleton_eq|].
        rewrite take_app_le by (rewrite length_take; lia).
        apply take_idemp.
    + exists false, (refused w).
      split; [apply SetSize_Copy_refused; assumption|].
      split; [intros _; split; [reflexivity | exact Hout] | discriminate].
Qed.

Lemma SetSize_NoCopy_sound grant w elements :
  well_formed w -> 0 <= elements -> elements * 3 < 2^32 ->
  exists ok w',
    SetSize_NoCopy grant elements w = Returns ok w' /\
    (ok = false -> w' = refused w /\ Allocated (fst w) < elements) /\
    (ok = true -> resized elements w w').
Proof.
  intros Hwf H0 H3.
  destruct (no_wrap elements H0 H3) as [Hnw Hle].
  pose proof Hwf as (HS & HP & HD).
  destruct (Z.le_gt_cases elements (Allocated (fst w))) as [Hin | Hout].
  - exists true, (with_Size elements w).
    split; [apply SetSize_NoCopy_within, Hin|].
    split; [discriminate|]. intros _.
    unfold resized, allocations, with_Size. simpl.
    rewrite Z.gtb_ltb. destruct (Z.ltb_spec (Allocated (fst w)) elements); [lia|].
    repeat split; try lia; try tauto.
  - destruct (grant (news (snd w)) (wrap32 (elements * 3) / 2)) eqn:Hg.
    + eexists true, _.
      split; [apply SetSize_NoCopy_granted; assumption|].
      split; [discriminate|]. intros _. rewrite Hnw in *.
      unfold resized, allocations, well_formed. simpl.
      rewrite Z.gtb_ltb.
      destruct (Z.ltb_spec (Allocated (fst w)) elements); [|lia].
      repeat split; try lia; try discriminate.
      eexists. split; [reflexivity|]. rewrite length_replicate. lia.
    + exists false, (refused w).
      split; [apply SetSize_NoCopy_refused; assumption|].
      split; [intros _; split; [reflexivity | exact Hout] | discriminate].
Qed.


Lemma store_sound grant w index rhs l :
  well_formed w -> data w = Some l ->
  0 <= index < Allocated (fst w) ->
  exists w',
    store (DataPtr (fst w)) index rhs w = Returns tt w' /\
    data w' = Some (<[Z.to_nat index := Some rhs]> l) /\
    well_formed w' /\
    Size (fst w') = Size (fst w) /\
    Allocated (fst w') = Allocated (fst w) /\
    DataPtr (fst w') = DataPtr (fst w) /\
    news (snd w') = news (snd w).
Proof.
  intros Hwf Hl Hi.
  destruct (well_formed_data w Hwf) as (l' & Hl' & Hlen).
  rewrite Hl in Hl'. inversion Hl'; subst l'. clear Hl'.
  destruct Hwf as (HS & HP & HD).
  unfold store. unfold data in Hl. rewrite Hl.
  destruct (Z.leb_spec 0 index); [|lia].
  destruct (Z.ltb_spec index (Z.of_nat (length l))); [|lia].
  simpl. eexists. split; [reflexivity|].
  destruct w as [[pre sz ptr al] [bl n]]. simpl in *.
  destruct ptr as [| b]; simpl in *.
  - inversion Hl; subst l.
    unfold data, well_formed; simpl.
    rewrite length_insert. repeat split; try lia; tauto.
  - destruct HD as (Hb & l0 & -> & Hl0).
    unfold data, well_formed; simpl.
    rewrite lookup_insert_eq, insert_singleton_eq.
    repeat split; try lia.
    eexists. split; [reflexivity|]. rewrite length_insert. lia.
Qed.

Lemma resized_after_store n w w1 w2 :
  resized n w w1 ->
  well_formed w2 ->
  Size (fst w2) = Size (fst w1) ->
  Allocated (fst w2) = Allocated (fst w1) ->
  DataPtr (fst w2) = DataPtr (fst w1) ->
  news (snd w2) = news (snd w1) ->
  resized n w w2.
Proof.
  intros (Hwf & HS & HA & HP & Hn & Hg) Hwf2 ES EA EP En.
  unfold resized, allocations in *.
  rewrite ES, EA, EP, En. tauto.
Qed.

(** [Append] of an object outside the vector stores its value. *)
Lemma Append_external grant rhs w :
  Append grant (external rhs) w =
  bind this (fun v =>
    bind (SetSize_Copy grant (wrap32 (Size v + 1))) (fun ok =>
      if negb ok then ret false
      else bind this (fun v' =>
             bind (store (DataPtr v') (wrap32 (wrap32 (Size v + 1) - 1)) rhs)
                  (fun _ => ret true)))) w.
Proof.
  unfold Append, bind, this.
  destruct (SetSize_Copy grant _ w) as [[|] w1 |]; reflexivity.
Qed.

Lemma Append_sound grant w rhs :
  well_formed w -> (Size (fst w) + 1) * 3 < 2^32 ->
  exists ok w',
    Append grant (external rhs) w = Returns ok w' /\
    (ok = false -> w' = refused w /\ Allocated (fst w) < Size (fst w) + 1) /\
    (ok = true ->
       resized (Size (fst w) + 1) w w' /\
       exists old new,
         data w = Some old /\ data w' = Some new /\
         take (Z.to_nat (Size (fst w))) new = take (Z.to_nat (Size (fst w))) old /\
         new !! Z.to_nat (Size (fst w)) = Some (Some rhs)).
Proof.
  intros Hwf H3. pose proof Hwf as (HS & _).
  rewrite Append_external. unfold bind, this.
  rewrite (wrap32_small (Size (fst w) + 1)) by lia.
  destruct (SetSize_Copy_sound grant w (Size (fst w) + 1) Hwf) as
    (ok & w1 & Hrun & Hfalse & Htrue); [lia | lia |].
  rewrite Hrun. destruct ok; simpl.
  - destruct (Htrue eq_refl) as (Hres & old & new & Hold & Hnew & Hkeep).
    pose proof Hres as (Hwf1 & HS1 & HA1 & _).
    pose proof Hwf1 as (HSA1 & _).
    replace (Size (fst w) + 1 - 1) with (Size (fst w)) by lia.
    rewrite wrap32_small by lia.
    destruct (store_sound grant w1 (Size (fst w)) rhs new Hwf1 Hnew)
      as (w2 & Hstore & Hdata2 & Hwf2 & ES & EA & EP & En); [lia|].
    rewrite Hstore. exists true, w2. split; [reflexivity|].
    split; [discriminate|]. intros _. split.
    + eapply resized_after_store; eauto.
    + destruct (well_formed_data w1 Hwf1) as (new' & Hnew' & Hlen).
      rewrite Hnew in Hnew'. inversion Hnew'; subst new'.
      exists old, (<[Z.to_nat (Size (fst w)) := Some rhs]> new).
      split; [exact Hold|]. split; [exact Hdata2|]. split.
      * rewrite take_insert_ge by lia. exact Hkeep.
      * apply list_lookup_insert_eq. lia.
  - exists false, w1. split; [reflexivity|].
    split; [intros _; apply Hfalse; reflexivity | discriminate].
Qed.

Lemma refused_well_formed w : well_formed w -> well_formed (refused w).
Proof.
  unfold well_formed, refused. simpl.
  intros (HS & HP & HD). repeat split; try tauto.
  destruct (DataPtr (fst w)); [tauto|].
  destruct HD as (Hb & l & Hl). split; [lia | eauto].
Qed.

Lemma stored_append w w' xs rhs :
  stored xs w ->
  Size (fst w') = Size (fst w) + 1 ->
  (exists old new,
     data w = Some old /\ data w' = Some new /\
     take (Z.to_nat (Size (fst w))) new = take (Z.to_nat (Size (fst w))) old /\
     new !! Z.to_nat (Size (fst w)) = Some (Some rhs)) ->
  stored (xs ++ [rhs]) w'.
Proof.
  intros (HS & l & Hl & Hxs) HS' (old & new & Hold & Hnew & Hkeep & Hlast).
  rewrite Hl in Hold. inversion Hold; subst old. clear Hold.
  rewrite HS, Nat2Z.id in *.
  split; [rewrite length_app; simpl; lia|].
  exists new. split; [exact Hnew|].
  rewrite length_app. simpl. rewrite Nat.add_1_r.
  rewrite (take_S_r _ _ _ Hlast), Hkeep, Hxs, fmap_app. reflexivity.
Qed.

Lemma append_all_sound grant xs : forall w ys,
  well_formed w -> stored ys w ->
  (Z.of_nat (length ys) + Z.of_nat (length xs)) * 3 < 2^32 ->
  exists ok w',
    append_all grant xs w = Returns ok w' /\
    well_formed w' /\
    (ok = true -> stored (ys ++ xs) w').
Proof.
  induction xs as [| x xs IH]; intros w ys Hwf Hst H3.
  - exists true, w. rewrite app_nil_r.
    split; [reflexivity|]. split; [exact Hwf | intros _; exact Hst].
  - pose proof Hst as (HS & _).
    cbn [append_all length] in *. unfold bind.
    destruct (Append_sound grant w x Hwf) as (ok & w1 & Hrun & Hfalse & Htrue);
      [lia|].
    rewrite Hrun. destruct ok.
    + destruct (Htrue eq_refl) as (Hres & Hdata).
      pose proof Hres as (Hwf1 & HS1 & _).
      pose proof (stored_append w w1 ys x Hst HS1 Hdata) as Hst1.
      destruct (IH w1 (ys ++ [x]) Hwf1 Hst1) as (ok & w2 & Hrun2 & Hwf2 & Hst2).
      { rewrite length_app. simpl. lia. }
      exists ok, w2. rewrite <- app_assoc in Hst2. simpl in Hst2.
      split; [exact Hrun2|]. split; [exact Hwf2 | exact Hst2].
    + destruct (Hfalse eq_refl) as [-> _].
      exists false, (refused w).
      split; [reflexivity|]. split; [apply refused_well_formed, Hwf | discriminate].
Qed.

Lemma fresh_well_formed : well_formed (@fresh T).
Proof. unfold well_formed, fresh, constructed, kPreallocated. simpl. repeat split; lia. Qed.

Lemma fresh_stored : stored [] (@fresh T).
Proof. split; [reflexivity|]. eexists. split; reflexivity. Qed.

Lemma stored_GetRef xs w i x :
  stored xs w -> xs !! i = Some x ->
  GetRef (Z.of_nat i) w = Some (Some x).
Proof.
  intros (HS & l & Hl & Hxs) Hi.
  unfold GetRef. destruct (Z.ltb_spec (Z.of_nat i) 0); [lia|].
  rewrite Hl. simpl. rewrite Nat2Z.id.
  pose proof (lookup_lt_Some _ _ _ Hi) as Hlt.
  rewrite <- (lookup_take_lt l (length xs) i) by exact Hlt.
  rewrite Hxs, list_lookup_fmap, Hi. reflexivity.
Qed.


Lemma SetSize_NoCopy_false grant w w' elements :
  SetSize_NoCopy grant elements w = Returns false w' -> w' = refused w.
Proof.
  unfold SetSize_NoCopy, bind, this, nothrow_new, set_Allocated, set_DataPtr,
    set_Size, delete_array, ret, refused.
  intros H. repeat (case_match; simplify_eq/=); reflexivity.
Qed.

Lemma SetSize_Copy_false grant w w' elements :
  SetSize_Copy grant elements w = Returns false w' -> w' = refused w.
Proof.
  unfold SetSize_Copy, bind, this, nothrow_new, set_Allocated, set_DataPtr,
    set_Size, memcpy, delete_array, ret, refused.
  intros H. repeat (case_match; simplify_eq/=); reflexivity.
Qed.

Lemma Append_false grant w w' (rhs : reference T) :
  Append grant rhs w = Returns false w' -> w' = refused w.
Proof.
  unfold Append, bind, this.
  destruct (SetSize_Copy grant _ w) as [[|] w1 |] eqn:E; simpl.
  - unfold read, store, ret. intros H. repeat (case_match; simplify_eq/=).
  - intros H. inversion H; subst. eapply SetSize_Copy_false, E.
  - discriminate.
Qed.

(** C4: when [SetSize_NoCopy], [SetSize_Copy] or [Append] returns
    [false], the vector is as it was before the call: element count,
    capacity, data pointer, preallocated elements, the arrays on the free
    store and so every element read through [GetRef].  The call returns
    normally; only the count of [new] calls has moved. *)
Theorem C4_failure_leaves_vector_unchanged grant c w w' :
  perform grant c w = Returns false w' ->
  fst w' = fst w /\ blocks (snd w') = blocks (snd w) /\
  (forall index, GetRef index w' = GetRef index w).
Proof.
  intros H.
  assert (E : w' = refused w).
  { destruct c as [n | n | x |]; simpl in H.
    - eapply SetSize_NoCopy_false, H.
    - eapply SetSize_Copy_false, H.
    - eapply Append_false, H.
    - discriminate H. }
  subst w'. repeat split.
Qed.

Lemma load_with_Size p n w : load p (with_Size n w) = load p w.
Proof. destruct p; reflexivity. Qed.

(** A reference that survives the call is read as the value it had
    before: [Append] then does what it does for that value. *)
Lemma Append_survivor grant w (r : reference T) x :
  well_formed w -> (Size (fst w) + 1) * 3 < 2^32 ->
  reads r x w -> survives_growth r w ->
  Append grant r w = Append grant (external x) w.
Proof.
  intros Hwf H3 Hr Hs. pose proof Hwf as (HS & _).
  destruct r as [y | p i]; [simpl in Hr; subst y; reflexivity|].
  destruct Hr as (Hi & l & Hl & Hx). simpl in Hs.
  destruct (no_wrap (Size (fst w) + 1)) as [Hnw Hle]; [lia | lia |].
  unfold Append, bind, this.
  rewrite (wrap32_small (Size (fst w) + 1)) by lia.
  destruct (Z.le_gt_cases (Size (fst w) + 1) (Allocated (fst w))) as [Hin | Hout].
  - rewrite SetSize_Copy_within by exact Hin. simpl.
    unfold read. rewrite load_with_Size, Hl.
    destruct (Z.leb_spec 0 i); [|lia]. rewrite Hx. reflexivity.
  - destruct Hs as [-> | Hs]; [|lia].
    destruct (grant (news (snd w)) (wrap32 ((Size (fst w) + 1) * 3) / 2)) eqn:Hg.
    + destruct (SetSize_Copy_granted grant w (Size (fst w) + 1) Hwf Hout Hg)
        as (old & _ & Hrun); [lia|].
      rewrite Hrun. simpl. simpl in Hl. inversion Hl; subst l.
      unfold read. simpl.
      destruct (Z.leb_spec 0 i); [|lia]. rewrite Hx. reflexivity.
    + rewrite SetSize_Copy_refused by assumption. reflexivity.
Qed.

(** As long as three times the requested size fits [unsigned] and the
    argument of [Append] survives the call, every call returns, and a
    successful one keeps the class invariant, never lowers the capacity,
    never goes back to the preallocated array, allocates exactly when the
    request exceeds the capacity and then makes the capacity
    [requested * 3 / 2]. *)
Theorem perform_sound grant c w :
  well_formed w ->
  0 <= requested c w -> requested c w * 3 < 2^32 ->
  argument_survives c w ->
  exists ok w',
    perform grant c w = Returns ok w' /\
    (ok = false -> w' = refused w) /\
    (ok = true -> resized (requested c w) w w').
Proof.
  intros Hwf H0 H3 Harg. destruct c as [n | n | r |]; simpl in *.
  - destruct (SetSize_NoCopy_sound grant w n Hwf H0 H3) as (ok & w' & Hrun & Hf & Ht).
    exists ok, w'. split; [exact Hrun|]. split; [apply Hf | exact Ht].
  - destruct (SetSize_Copy_sound grant w n Hwf H0 H3) as (ok & w' & Hrun & Hf & Ht).
    exists ok, w'. split; [exact Hrun|]. split; [apply Hf | apply Ht].
  - destruct Harg as [[x Hr] Hs].
    rewrite (Append_survivor grant w r x Hwf H3 Hr Hs).
    destruct (Append_sound grant w x Hwf H3) as (ok & w' & Hrun & Hf & Ht).
    exists ok, w'. split; [exact Hrun|]. split; [apply Hf | apply Ht].
  - exists true, (with_Size 0 w). split; [reflexivity|].
    split; [discriminate|]. intros _.
    destruct Hwf as (HS & HP & HD).
    unfold resized, allocations, well_formed, with_Size. simpl.
    rewrite Z.gtb_ltb. destruct (Z.ltb_spec (Allocated (fst w)) 0); [lia|].
    repeat split; try lia; tauto.
Qed.

(** A full vector of 1431655765 elements or more cannot take one more:
    the new capacity wraps around to less than the current size and the
    copy runs past the new array. *)
Lemma Append_overrun grant w rhs :
  well_formed w ->
  Size (fst w) = Allocated (fst w) ->
  1431655766 <= Size (fst w) + 1 < 2^32 ->
  grant (news (snd w)) (wrap32 ((Size (fst w) + 1) * 3) / 2) = true ->
  Append grant (external rhs) w = Undefined.
Proof.
  intros Hwf HSA Hrange Hg. rewrite Append_external. unfold bind, this.
  rewrite (wrap32_small (Size (fst w) + 1)) by lia.
  rewrite SetSize_Copy_overrun; auto; [lia|].
  unfold wrap32.
  apply Z.div_lt_upper_bound; [lia|].
  destruct (Z.lt_ge_cases ((Size (fst w) + 1) * 3) (2 * 2^32)).
  - replace ((Size (fst w) + 1) * 3) with ((Size (fst w) + 1) * 3 - 2^32 + 1 * 2^32) by lia.
    rewrite Z.mod_add by lia. rewrite Z.mod_small by lia. lia.
  - replace ((Size (fst w) + 1) * 3) with ((Size (fst w) + 1) * 3 - 2 * 2^32 + 2 * 2^32) by lia.
    rewrite Z.mod_add by lia. rewrite Z.mod_small by lia. lia.
Qed.

(** The capacities a run of [Append] calls goes through from the
    preallocated 25 are 39, 60, 91, ...; the 44th is 1551591825, and a vector
    full at that size is one [Append_overrun] applies to: the next capacity
    wraps around to 179904091. *)
Lemma Append_capacities :
  Nat.iter 44 grown_capacity kPreallocated = 1551591825 /\
  1431655766 <= 1551591825 + 1 < 2^32 /\
  grown_capacity 1551591825 = 179904091.
Proof. vm_compute. repeat split; discriminate. Qed.

(** C5 fails on the code: [elements * 3] is computed in [unsigned]
    arithmetic.  On a new vector, [SetSize_NoCopy(1431655766)] and
    [SetSize_Copy(1431655766)] succeed with a new capacity of 1, where
    [floor(1431655766 * 3 / 2)] is 2147483649. *)
Theorem C5_growth_wraps_around :
  (exists w', SetSize_NoCopy always 1431655766 (@fresh T) = Returns true w' /\
              Allocated (fst w') = 1) /\
  (exists w', SetSize_Copy always 1431655766 (@fresh T) = Returns true w' /\
              Allocated (fst w') = 1) /\
  1431655766 * 3 / 2 = 2147483649.
Proof.
  split; [|split].
  - eexists. split; [vm_compute; reflexivity | reflexivity].
  - eexists. split; [vm_compute; reflexivity | reflexivity].
  - reflexivity.
Qed.

(** C6 fails on the code: after [Append(a)] and [Append(b)] on a new
    vector, [SetSize_Copy(1431655766)] is granted an array of one
    element and copies two elements into it, which is undefined
    behaviour, so the two values are not preserved. *)
Theorem C6_copy_overruns_new_array (a b : T) :
  exists w1,
    append_all always [a; b] fresh = Returns true w1 /\
    GetSize w1 = 2 /\
    GetRef 0 w1 = Some (Some a) /\ GetRef 1 w1 = Some (Some b) /\
    wrap32 (1431655766 * 3) / 2 = 1 /\
    SetSize_Copy always 1431655766 w1 = Undefined /\
    ~ (exists ok w2,
         SetSize_Copy always 1431655766 w1 = Returns ok w2 /\
         GetRef 1 w2 = Some (Some b)).
Proof.
  set (w1 := (mkLightVector (Some a :: Some b :: replicate 23 None) 2
                            PreallocatedPtr 25, mkHeap ∅ 0) : World T).
  assert (Hrun : SetSize_Copy always 1431655766 w1 = Undefined)
    by (vm_compute; reflexivity).
  exists w1. split; [vm_compute; reflexivity|].
  repeat split; try reflexivity; try exact Hrun.
  intros (ok & w2 & Hok & _). rewrite Hrun in Hok. discriminate Hok.
Qed.

(** C7 fails on the code: on a new vector, which satisfies the class
    invariant, [SetSize_NoCopy(1431655766)] succeeds and leaves
    [Size = 1431655766] above [Allocated = 1], a capacity below the 25
    it had before. *)
Theorem C7_invariant_broken :
  exists w',
    SetSize_NoCopy always 1431655766 (@fresh T) = Returns true w' /\
    well_formed (@fresh T) /\
    Size (fst w') = 1431655766 /\
    Allocated (fst w') = 1 /\
    Allocated (fst (@fresh T)) = 25 /\
    ~ Size (fst w') <= Allocated (fst w') /\
    ~ Allocated (fst (@fresh T)) <= Allocated (fst w').
Proof.
  eexists. split; [vm_compute; reflexivity|]. split; [apply fresh_well_formed|].
  simpl. unfold kPreallocated. repeat split; lia.
Qed.

(** Up to 1431655765 elements, [Append] calls that all succeed on a new
    vector leave [GetSize] at their number and every value readable at
    its index, whatever reallocations took place. *)
Theorem append_all_stored grant xs w' :
  Z.of_nat (length xs) * 3 < 2^32 ->
  append_all grant xs fresh = Returns true w' ->
  GetSize w' = Z.of_nat (length xs) /\
  forall i x, xs !! i = Some x -> GetRef (Z.of_nat i) w' = Some (Some x).
Proof.
  intros H3 Hrun.
  destruct (append_all_sound grant xs fresh [] fresh_well_formed fresh_stored)
    as (ok & w2 & Hrun2 & _ & Hst); [simpl; lia|].
  rewrite Hrun in Hrun2. inversion Hrun2; subst ok w2.
  specialize (Hst eq_refl). simpl in Hst.
  split; [apply Hst|]. intros i x Hi. eapply stored_GetRef; eauto.
Qed.

End Elements.

Lemma C4_failure_leaves_vector_unchanged_witness :
  perform (T:=Z) never (call_Append (external 7)) (with_Size 25 fresh) =
    Returns false (refused (with_Size 25 fresh)) /\
  fst (refused (T:=Z) (with_Size 25 fresh)) = fst (with_Size (T:=Z) 25 fresh) /\
  blocks (snd (refused (T:=Z) (with_Size 25 fresh))) =
    blocks (snd (with_Size (T:=Z) 25 fresh)) /\
  (forall index, GetRef index (refused (T:=Z) (with_Size 25 fresh)) =
                 GetRef index (with_Size 25 fresh)).
Proof.
  split; [reflexivity|].
  apply (C4_failure_leaves_vector_unchanged never (call_Append (external 7))).
  reflexivity.
Defined.

End LightVectorSpec.

(** ** WindowedMinMax *)

Module WindowedMinMaxSpec.
Import WindowedMinMax.

Lemma Compare_refl c x : Compare c x x = true.
Proof. destruct c; simpl; [apply Z.leb_refl | rewrite Z.geb_leb; apply Z.leb_refl]. Qed.

Lemma Compare_trans c x y z :
  Compare c x y = true -> Compare c y z = true -> Compare c x z = true.
Proof.
  destruct c; simpl; rewrite ?Z.geb_leb, ?Z.leb_le; lia.
Qed.

(** A value that does not beat [y] is beaten by [y]: the comparisons are
    total. *)
Lemma Compare_false c x y : Compare c x y = false -> Compare c y x = true.
Proof.
  destruct c; simpl; rewrite ?Z.geb_leb, ?Z.leb_le, ?Z.leb_gt; lia.
Qed.

Lemma insert_sample_best c st sample :
  Samples0 (insert_sample c st sample) = Samples0 st.
Proof.
  unfold insert_sample.
  destruct (Compare c (Value sample) (Value (Samples1 st))); [reflexivity|].
  destruct (Compare c (Value sample) (Value (Samples2 st))); reflexivity.
Qed.

(** After insertion, the new value does not beat the second sample
    strictly and the third not at all: both are at least as extreme as it,
    provided the old ones were ranked. *)
Lemma insert_sample_ranked c st sample :
  ranked c st ->
  Compare c (Value sample) (Value (Samples0 st)) = false ->
  let st1 := insert_sample c st sample in
  ranked c st1 /\
  Compare c (Value (Samples1 st1)) (Value sample) = true /\
  Compare c (Value (Samples2 st1)) (Value sample) = true.
Proof.
  intros [H01 H12] Hbest. unfold insert_sample, ranked.
  destruct (Compare c (Value sample) (Value (Samples1 st))) eqn:E1; simpl.
  - repeat split; auto using Compare_refl, Compare_false.
  - destruct (Compare c (Value sample) (Value (Samples2 st))) eqn:E2; simpl;
      repeat split; auto using Compare_refl, Compare_false.
Qed.

Lemma Update_ranked c st value timestamp w :
  ranked c st -> ranked c (Update c st value timestamp w).
Proof.
  intros Hr. unfold Update.
  destruct (reset_branch c st value timestamp w) eqn:Hreset.
  { split; apply Compare_refl. }
  unfold reset_branch in Hreset.
  apply orb_false_iff in Hreset as [Hreset _].
  apply orb_false_iff in Hreset as [_ Hbest].
  destruct (insert_sample_ranked c st (mkSample value timestamp) Hr Hbest)
    as ([H01 H12] & H1s & H2s).
  simpl in H1s, H2s.
  set (st1 := insert_sample c st (mkSample value timestamp)) in *.
  assert (H0s : Compare c (Value (Samples0 st1)) value = true)
    by (eapply Compare_trans; eauto).
  destruct (TimeoutExpired (Samples0 st1) timestamp w).
  - unfold expire_best; simpl.
    destruct (TimeoutExpired (Samples1 st1) timestamp w); split; simpl;
      auto using Compare_refl.
  - unfold age_backups; simpl.
    destruct (_ && _); [split; simpl; auto using Compare_refl|].
    destruct (_ && _); split; simpl; auto using Compare_refl.
Qed.

(** C1: when the estimator is uninitialized, or the value compares as
    extreme-or-equal to the best sample's value, or the third sample's age
    at [timestamp] exceeds the window length, [Update] leaves all three
    samples equal to the new sample [(value, timestamp)]; the three samples
    are the whole state, so nothing else changes. *)
Theorem C1_Update_resets c st value timestamp windowLengthTime :
  IsValid st = false
  \/ Compare c value (Value (Samples0 st)) = true
  \/ TimeoutExpired (Samples2 st) timestamp windowLengthTime = true ->
  Update c st value timestamp windowLengthTime =
    mkWMM (mkSample value timestamp) (mkSample value timestamp)
          (mkSample value timestamp).
Proof.
  intros H. unfold Update.
  assert (Hb : reset_branch c st value timestamp windowLengthTime = true).
  { unfold reset_branch. destruct H as [H | [H | H]]; rewrite H; simpl;
      rewrite ?orb_true_r; reflexivity. }
  rewrite Hb. reflexivity.
Qed.

Lemma C1_Update_resets_witness :
  (IsValid (mkWMM (mkSample 4 10) (mkSample 6 20) (mkSample 6 20)) = false
   \/ Compare WindowedMinCompare 3 4 = true
   \/ TimeoutExpired (mkSample 6 20) 30 100 = true) /\
  Update WindowedMinCompare
         (mkWMM (mkSample 4 10) (mkSample 6 20) (mkSample 6 20)) 3 30 100 =
    mkWMM (mkSample 3 30) (mkSample 3 30) (mkSample 3 30).
Proof.
  split.
  - right; left; reflexivity.
  - apply (C1_Update_resets WindowedMinCompare
             (mkWMM (mkSample 4 10) (mkSample 6 20) (mkSample 6 20)) 3 30 100).
    right; left; reflexivity.
Defined.

(** C2: when [Update] does not take the reset branch and, after the new
    sample was inserted into the backups, the best sample's age exceeds the
    window length: if the second sample's age exceeds it too, the third
    becomes best and the new sample second (and third); otherwise the
    second becomes best, the third second and the new sample third.  The
    state is returned as it is then: the quarter- and half-window rules are
    not applied. *)
Theorem C2_Update_expires_best c st value timestamp windowLengthTime :
  reset_branch c st value timestamp windowLengthTime = false ->
  TimeoutExpired (Samples0 (insert_sample c st (mkSample value timestamp)))
                 timestamp windowLengthTime = true ->
  let sample := mkSample value timestamp in
  let st1 := insert_sample c st sample in
  let st' := Update c st value timestamp windowLengthTime in
  (TimeoutExpired (Samples1 st1) timestamp windowLengthTime = true ->
     Samples0 st' = Samples2 st1 /\ Samples1 st' = sample /\
     Samples2 st' = sample) /\
  (TimeoutExpired (Samples1 st1) timestamp windowLengthTime = false ->
     Samples0 st' = Samples1 st1 /\ Samples1 st' = Samples2 st1 /\
     Samples2 st' = sample).
Proof.
  intros Hreset Hexp sample st1 st'. subst st'. unfold Update.
  rewrite Hreset. fold sample. fold st1. fold sample in Hexp. fold st1 in Hexp.
  rewrite Hexp. unfold expire_best. simpl.
  split; intros H2; rewrite H2; simpl; auto.
Qed.

(** C3: in every state reachable from the initial one by [Reset] and
    [Update] calls, the best value is at least as extreme as the second and
    the second as the third, under the configured comparison. *)
Theorem C3_reachable_ranked c st :
  reachable c st ->
  Compare c (Value (Samples0 st)) (Value (Samples1 st)) = true /\
  Compare c (Value (Samples1 st)) (Value (Samples2 st)) = true.
Proof.
  intros Hreach. change (ranked c st).
  induction Hreach as [| st sample _ _ | st value timestamp w _ IH].
  - split; apply Compare_refl.
  - split; apply Compare_refl.
  - apply Update_ranked. exact IH.
Qed.

Lemma C2_Update_expires_best_witness :
  let st := run WindowedMinCompare 100 initial [(1,0); (3,10); (5,30); (7,90)] in
  reset_branch WindowedMinCompare st 10 131 100 = false /\
  TimeoutExpired (Samples0 (insert_sample WindowedMinCompare st (mkSample 10 131)))
                 131 100 = true /\
  Update WindowedMinCompare st 10 131 100 =
    mkWMM (mkSample 7 90) (mkSample 10 131) (mkSample 10 131).
Proof.
  intros st. split; [reflexivity|]. split; [reflexivity|].
  destruct (C2_Update_expires_best WindowedMinCompare st 10 131 100
              eq_refl eq_refl) as [Hdouble _].
  destruct (Hdouble eq_refl) as (H0 & H1 & H2).
  destruct (Update WindowedMinCompare st 10 131 100) as [s0 s1 s2].
  simpl in H0, H1, H2. rewrite H0, H1, H2. reflexivity.
Defined.

Lemma C3_reachable_ranked_witness :
  let st := run WindowedMinCompare 100 initial [(1, 0); (3, 10); (5, 30); (7, 90)] in
  st = mkWMM (mkSample 1 0) (mkSample 5 30) (mkSample 7 90) /\
  reachable WindowedMinCompare st /\
  Compare WindowedMinCompare (Value (Samples0 st)) (Value (Samples1 st)) = true /\
  Compare WindowedMinCompare (Value (Samples1 st)) (Value (Samples2 st)) = true.
Proof.
  intros st.
  assert (Hreach : reachable WindowedMinCompare st).
  { unfold st. cbn [run]. do 4 apply reach_Update. apply reach_initial. }
  split; [reflexivity|]. split; [exact Hreach|].
  exact (C3_reachable_ranked WindowedMinCompare st Hreach).
Defined.

(** *** Expiry of the best sample *)

Lemma fresh_sample_not_expired value timestamp w :
  0 <= w -> TimeoutExpired (mkSample value timestamp) timestamp w = false.
Proof.
  intros Hw. unfold TimeoutExpired. simpl. rewrite Z.sub_diag, wrap64_zero.
  rewrite Z.gtb_ltb. apply Z.ltb_ge. exact Hw.
Qed.

Lemma insert_sample_third_not_expired c st value timestamp w :
  0 <= w ->
  TimeoutExpired (Samples2 st) timestamp w = false ->
  TimeoutExpired (Samples2 (insert_sample c st (mkSample value timestamp)))
                 timestamp w = false.
Proof.
  intros Hw H2. unfold insert_sample.
  repeat match goal with
         | |- context [if ?b then _ else _] => destruct b
         end; simpl; auto using fresh_sample_not_expired.
Qed.

(** Whatever the state before, the best sample [Update] leaves is not
    expired at the time of the update. *)
Lemma Update_best_not_expired c st value timestamp w :
  0 <= w ->
  TimeoutExpired (Samples0 (Update c st value timestamp w)) timestamp w = false.
Proof.
  intros Hw. unfold Update.
  destruct (reset_branch c st value timestamp w) eqn:Hreset.
  { simpl. apply fresh_sample_not_expired, Hw. }
  unfold reset_branch in Hreset.
  apply orb_false_iff in Hreset as [_ H2].
  pose proof (insert_sample_third_not_expired c st value timestamp w Hw H2) as H2'.
  destruct (TimeoutExpired (Samples0 (insert_sample c st _)) timestamp w) eqn:H0.
  - unfold expire_best. simpl.
    destruct (TimeoutExpired (Samples1 (insert_sample c st _)) timestamp w) eqn:H1;
      simpl; assumption.
  - unfold age_backups. simpl.
    repeat match goal with
           | |- context [if ?b then _ else _] => destruct b
           end; simpl; assumption.
Qed.

(** Every sample [Update] leaves is one of the old samples or the new
    one. *)
Lemma Update_provenance (P : Sample -> Prop) c st value timestamp w :
  P (Samples0 st) -> P (Samples1 st) -> P (Samples2 st) ->
  P (mkSample value timestamp) ->
  P (Samples0 (Update c st value timestamp w)) /\
  P (Samples1 (Update c st value timestamp w)) /\
  P (Samples2 (Update c st value timestamp w)).
Proof.
  intros H0 H1 H2 Hs.
  unfold Update, insert_sample, expire_best, age_backups.
  repeat match goal with
         | |- context [if ?b then _ else _] => destruct b
         end; simpl; auto.
Qed.

Lemma Update_stamps c st value timestamp w lo hi :
  stamps_within lo hi st -> lo <= timestamp -> hi <= timestamp ->
  stamps_within lo timestamp (Update c st value timestamp w).
Proof.
  intros (H0 & H1 & H2) Hlo Hhi.
  apply (Update_provenance (fun s => lo <= Timestamp s <= timestamp));
    simpl; lia.
Qed.

Lemma last_timestamp_cons t0 v t us :
  last_timestamp t0 ((v, t) :: us) = last_timestamp t us.
Proof. reflexivity. Qed.

Lemma nondecreasing_last t0 us :
  nondecreasing_from t0 us -> t0 <= last_timestamp t0 us.
Proof.
  revert t0. induction us as [| [v t] us IH]; intros t0 H.
  - unfold last_timestamp. simpl. lia.
  - destruct H as [Ht H]. rewrite last_timestamp_cons.
    specialize (IH t H). lia.
Qed.

Lemma run_stamps c w us : forall st t0,
  nondecreasing_from t0 us -> stamps_within 0 t0 st ->
  stamps_within 0 (last_timestamp t0 us) (run c w st us).
Proof.
  induction us as [| [v t] us IH]; intros st t0 Hnd Hst.
  - exact Hst.
  - destruct Hnd as [Ht Hnd]. rewrite last_timestamp_cons.
    cbn [run]. apply IH; [exact Hnd|].
    pose proof Hst as (H0 & _).
    apply (Update_stamps c st v t w 0 t0 Hst); lia.
Qed.

(** C9: under [Update] calls with non-decreasing timestamps and one window
    length [w], the best sample kept by an [Update] at time [t] is not
    expired: its age [t - Timestamp] is at most [w]. *)
Theorem C9_best_never_expired c w us value t :
  is_uint64 w ->
  nondecreasing_from 0 us ->
  last_timestamp 0 us <= t < 2^64 ->
  let st' := Update c (run c w initial us) value t w in
  TimeoutExpired (Samples0 st') t w = false /\
  0 <= t - Timestamp (Samples0 st') <= w.
Proof.
  intros [Hw _] Hnd [Hlast Ht] st'.
  assert (Hne : TimeoutExpired (Samples0 st') t w = false)
    by (apply Update_best_not_expired, Hw).
  split; [exact Hne|].
  assert (Hinit : stamps_within 0 0 initial) by (repeat split; simpl; lia).
  pose proof (run_stamps c w us initial 0 Hnd Hinit) as Hrun.
  pose proof (nondecreasing_last 0 us Hnd) as H0.
  assert (Hst : stamps_within 0 t st')
    by (apply (Update_stamps c _ value t w 0 _ Hrun); lia).
  destruct Hst as (Hb & _).
  unfold TimeoutExpired in Hne. rewrite wrap64_small in Hne by lia.
  bool_to_Z. lia.
Qed.

Lemma C9_best_never_expired_witness :
  let st' := Update WindowedMinCompare
               (run WindowedMinCompare 100 initial [(1,0); (3,10); (5,30)])
               10 101 100 in
  is_uint64 100 /\
  nondecreasing_from 0 [(1,0); (3,10); (5,30)] /\
  last_timestamp 0 [(1,0); (3,10); (5,30)] <= 101 < 2^64 /\
  TimeoutExpired (Samples0 st') 101 100 = false /\
  0 <= 101 - Timestamp (Samples0 st') <= 100.
Proof.
  intros st'.
  assert (Hw : is_uint64 100) by (unfold is_uint64; lia).
  assert (Hnd : nondecreasing_from 0 [(1,0); (3,10); (5,30)])
    by (simpl; lia).
  assert (Ht : last_timestamp 0 [(1,0); (3,10); (5,30)] <= 101 < 2^64)
    by (unfold last_timestamp; simpl; lia).
  split; [exact Hw|]. split; [exact Hnd|]. split; [exact Ht|].
  exact (C9_best_never_expired WindowedMinCompare 100
           [(1,0); (3,10); (5,30)] 10 101 Hw Hnd Ht).
Defined.

(** *** A small value followed by larger ones *)

Lemma Update_keeps_best c st value timestamp w :
  reset_branch c st value timestamp w = false ->
  TimeoutExpired (Samples0 st) timestamp w = false ->
  Samples0 (Update c st value timestamp w) = Samples0 st.
Proof.
  intros Hreset Hbest. unfold Update. rewrite Hreset.
  rewrite insert_sample_best, Hbest.
  rewrite <- (insert_sample_best c st (mkSample value timestamp)).
  unfold age_backups.
  repeat match goal with
         | |- context [if ?b then _ else _] => destruct b
         end; reflexivity.
Qed.

Section SmallThenLarger.

Variables w v t0 : Z.
Hypothesis Hw : is_uint64 w.
Hypothesis Ht0 : is_uint64 t0.

Let Min := WindowedMinCompare.

Lemma backup_of_mono seen seen' tcur tcur' s :
  backup_of v t0 seen tcur s -> tcur <= tcur' ->
  backup_of v t0 (seen ++ seen') tcur' s.
Proof.
  intros [[Hs | Hs] Ht] Hle; split; try lia; [left; exact Hs|].
  right. rewrite map_app. apply in_or_app. left. exact Hs.
Qed.

(** Inside the window of [(v, t0)] a larger value leaves the best sample
    in place. *)
Lemma Update_holds_best seen tcur st x t :
  v <> 0 ->
  holds_best v t0 seen tcur st ->
  v < x -> tcur <= t -> t < 2^64 -> t - t0 <= w ->
  holds_best v t0 (seen ++ [(x, t)]) t (Update Min st x t w).
Proof.
  intros Hv (E0 & B1 & B2) Hx Hcur Ht Hwin.
  destruct Ht0 as [Ht0lo _].
  assert (Hbest : TimeoutExpired (Samples0 st) t w = false).
  { rewrite E0. unfold TimeoutExpired. simpl.
    destruct B1 as [_ B1].
    rewrite wrap64_small by lia. rewrite Z.gtb_ltb. apply Z.ltb_ge. lia. }
  assert (Hreset : reset_branch Min st x t w = false).
  { unfold reset_branch, IsValid. rewrite E0. simpl.
    destruct B2 as [_ B2].
    apply orb_false_iff; split; [apply orb_false_iff; split|].
    - rewrite negb_involutive. apply Z.eqb_neq. exact Hv.
    - apply Z.leb_gt. exact Hx.
    - unfold TimeoutExpired. rewrite wrap64_small by lia.
      rewrite Z.gtb_ltb. apply Z.ltb_ge. lia. }
  split.
  { rewrite (Update_keeps_best Min st x t w Hreset Hbest). exact E0. }
  assert (Hle : t0 <= tcur) by (destruct B1 as [_ B1]; lia).
  destruct (Update_provenance (backup_of v t0 (seen ++ [(x, t)]) t) Min st x t w)
    as (_ & H1 & H2); [| | | |split; assumption].
  - rewrite E0. split; [left; reflexivity|]. simpl. lia.
  - exact (backup_of_mono seen _ tcur t _ B1 Hcur).
  - exact (backup_of_mono seen _ tcur t _ B2 Hcur).
  - split; simpl; [|lia].
    right. rewrite map_app. apply in_or_app. right. simpl. left. reflexivity.
Qed.

Lemma run_holds_best us : forall seen tcur st,
  v <> 0 ->
  holds_best v t0 seen tcur st ->
  nondecreasing_from tcur us ->
  Forall (fun u => v < fst u) us ->
  last_timestamp tcur us < 2^64 ->
  last_timestamp tcur us - t0 <= w ->
  holds_best v t0 (seen ++ us) (last_timestamp tcur us) (run Min w st us).
Proof.
  induction us as [| [x t] us IH]; intros seen tcur st Hv Hst Hnd Hall Hmax Hwin.
  - rewrite app_nil_r. exact Hst.
  - destruct Hnd as [Ht Hnd].
    rewrite last_timestamp_cons in *. cbn [run].
    pose proof (nondecreasing_last t us Hnd) as Hlast.
    inversion Hall as [| u us' Hx Hall']; subst. simpl in Hx.
    replace (seen ++ (x, t) :: us) with ((seen ++ [(x, t)]) ++ us)
      by (rewrite <- app_assoc; reflexivity).
    apply IH; auto.
    apply (Update_holds_best seen tcur st x t Hv Hst Hx Ht); lia.
Qed.

(** Once [(v, t0)] has left the window, the best sample becomes the new
    sample or a backup seen after [(v, t0)]. *)
Lemma Update_replaces_best seen tcur st x t :
  holds_best v t0 seen tcur st ->
  tcur <= t -> t < 2^64 -> w < t - t0 ->
  In (GetBest (Update Min st x t w)) (x :: map fst seen).
Proof.
  intros (E0 & B1 & B2) Hcur Ht Hout.
  destruct Ht0 as [Ht0lo _]. destruct Hw as [Hwlo _].
  pose (P := fun s : Sample =>
               TimeoutExpired s t w = false -> In (Value s) (x :: map fst seen)).
  assert (Hold : P (mkSample v t0)).
  { intros Hne. unfold TimeoutExpired in Hne. simpl in Hne.
    destruct B1 as [_ B1].
    rewrite wrap64_small in Hne by lia. bool_to_Z. lia. }
  assert (Hbackup : forall s, backup_of v t0 seen tcur s -> P s).
  { intros s [[Hs | Hs] _]; [rewrite Hs; exact Hold|].
    intros _. right. exact Hs. }
  destruct (Update_provenance P Min st x t w) as (H0 & _).
  - rewrite E0. exact Hold.
  - apply Hbackup, B1.
  - apply Hbackup, B2.
  - intros _. left. reflexivity.
  - apply H0. apply Update_best_not_expired. exact Hwlo.
Qed.

End SmallThenLarger.

Lemma run_append c w st us vs :
  run c w st (us ++ vs) = run c w (run c w st us) vs.
Proof.
  revert st. induction us as [| [v t] us IH]; intros st; [reflexivity|].
  cbn [app run]. apply IH.
Qed.

Lemma last_timestamp_app t0 us vs :
  last_timestamp t0 (us ++ vs) = last_timestamp (last_timestamp t0 us) vs.
Proof. unfold last_timestamp. apply fold_left_app. Qed.

Lemma nondecreasing_app t0 us vs :
  nondecreasing_from t0 (us ++ vs) ->
  nondecreasing_from t0 us /\ nondecreasing_from (last_timestamp t0 us) vs.
Proof.
  revert t0. induction us as [| [v t] us IH]; intros t0 H.
  - split; [exact I | exact H].
  - destruct H as [Ht H]. destruct (IH t H) as [H1 H2].
    rewrite last_timestamp_cons. split; [split; assumption | exact H2].
Qed.

(** Decide the integer tests of [Update] from the hypotheses, innermost
    tests first. *)
Ltac plain_test a b :=
  lazymatch a with
  | context [if _ then _ else _] => fail
  | _ => lazymatch b with
         | context [if _ then _ else _] => fail
         | _ => idtac
         end
  end.

Ltac decide_tests :=
  repeat first
    [ progress simpl
    | rewrite wrap64_small by lia
    | rewrite Z.gtb_ltb
    | rewrite Z.eqb_refl
    | rewrite Z.sub_diag
    | match goal with
      | |- context [?a <=? ?b] =>
          plain_test a b; destruct (Z.leb_spec a b); try lia
      | |- context [?a =? ?b] =>
          plain_test a b; destruct (Z.eqb_spec a b); try lia
      | |- context [?a <? ?b] =>
          plain_test a b; destruct (Z.ltb_spec a b); try lia
      end ].

Section LeastRecorded.
Variables w v t0 : Z.
Hypothesis Hw : is_uint64 w.
Hypothesis Ht0 : is_uint64 t0.
Hypothesis Hv : v <> 0.

Let Min := WindowedMinCompare.

Lemma window_fractions : w / 4 <= w / 2 /\ w / 2 <= w.
Proof. destruct Hw. Z.div_mod_to_equations. lia. Qed.

(** A larger value that comes within a quarter window of [(v, t0)] leaves
    no trace. *)
Lemma Update_early_ignored x t :
  v < x -> t0 <= t < 2^64 -> t - t0 <= w / 4 ->
  Update Min (Reset (mkSample v t0)) x t w = Reset (mkSample v t0).
Proof.
  intros Hx Ht Hq. destruct Ht0 as [H0 _]. destruct window_fractions as [F1 F2].
  unfold Update, reset_branch, insert_sample, age_backups, IsValid,
    TimeoutExpired, Reset, Min.
  decide_tests. reflexivity.
Qed.

Lemma run_early_ignored early : forall tcur,
  t0 <= tcur ->
  nondecreasing_from tcur early ->
  Forall (fun u => v < fst u) early ->
  last_timestamp tcur early < 2^64 ->
  Forall (fun u => snd u - t0 <= w / 4) early ->
  run Min w (Reset (mkSample v t0)) early = Reset (mkSample v t0).
Proof.
  induction early as [| [x t] early IH]; intros tcur Hcur Hnd Hall Hmax Hq;
    [reflexivity|].
  destruct Hnd as [Ht Hnd]. rewrite last_timestamp_cons in Hmax.
  pose proof (nondecreasing_last t early Hnd) as Hlast.
  inversion Hall as [| ? ? Hx Hall']; subst.
  inversion Hq as [| ? ? Hqx Hq']; subst. simpl in Hx, Hqx.
  cbn [run]. rewrite Update_early_ignored by lia.
  apply (IH t); auto; lia.
Qed.

(** The first larger value that comes later than a quarter window after
    [(v, t0)] becomes second and third. *)
Lemma Update_first_late y t1 :
  v < y -> t0 <= t1 < 2^64 -> w / 4 < t1 - t0 -> t1 - t0 <= w ->
  tracks_least v t0 t1 [(y, t1)] t1
    (Update Min (Reset (mkSample v t0)) y t1 w).
Proof.
  intros Hy Ht Hq Hin. destruct Ht0 as [H0 _].
  unfold Update, reset_branch, insert_sample, age_backups, IsValid,
    TimeoutExpired, Reset, Min.
  decide_tests.
  unfold tracks_least, next_best_observed. simpl.
  split; [reflexivity|]. split; [reflexivity|]. lia.
Qed.

Lemma Update_tracks_least t1 late tcur st x t :
  t0 <= t1 ->
  tracks_least v t0 t1 late tcur st ->
  v < x -> tcur <= t -> t < 2^64 -> t - t0 <= w ->
  tracks_least v t0 t1 (late ++ [(x, t)]) t (Update Min st x t w).
Proof.
  intros H01 (E0 & Hmin & Hv1 & B1 & B2) Hx Hcur Ht Hin.
  destruct Ht0 as [H0 _].
  destruct st as [s0 [v1 ts1] [v2 ts2]]. simpl in *. subst s0.
  assert (Hmin' : forall z,
            next_best_observed z (map fst (late ++ [(x, t)])) = Z.min (Z.min v1 x) z).
  { intros z. unfold next_best_observed in *.
    rewrite map_app, fold_right_app. simpl. rewrite Hmin. lia. }
  unfold Update, reset_branch, insert_sample, age_backups, IsValid,
    TimeoutExpired, Min.
  decide_tests;
    unfold tracks_least; simpl;
    (split; [reflexivity|]); (split; [intros z; rewrite Hmin'; lia|]); lia.
Qed.

Lemma run_tracks_least t1 rest : forall late tcur st,
  t0 <= t1 ->
  tracks_least v t0 t1 late tcur st ->
  nondecreasing_from tcur rest ->
  Forall (fun u => v < fst u) rest ->
  last_timestamp tcur rest < 2^64 ->
  last_timestamp tcur rest - t0 <= w ->
  tracks_least v t0 t1 (late ++ rest) (last_timestamp tcur rest)
    (run Min w st rest).
Proof.
  induction rest as [| [x t] rest IH]; intros late tcur st H01 Hst Hnd Hall Hmax Hin.
  - rewrite app_nil_r. exact Hst.
  - destruct Hnd as [Ht Hnd]. rewrite last_timestamp_cons in *. cbn [run].
    pose proof (nondecreasing_last t rest Hnd) as Hlast.
    inversion Hall as [| ? ? Hx Hall']; subst. simpl in Hx.
    replace (late ++ (x, t) :: rest) with ((late ++ [(x, t)]) ++ rest)
      by (rewrite <- app_assoc; reflexivity).
    apply IH; auto.
    apply (Update_tracks_least t1 late tcur st x t H01 Hst Hx Ht); lia.
Qed.

(** When [(v, t0)] leaves the window while the first recorded larger
    value is still inside, the least recorded value, the new one
    included, becomes best. *)
Lemma Update_promotes_least t1 late tcur st x t :
  t0 <= t1 ->
  tracks_least v t0 t1 late tcur st ->
  v < x -> tcur <= t -> t < 2^64 -> w < t - t0 -> t - t1 <= w ->
  GetBest (Update Min st x t w) = next_best_observed x (map fst late).
Proof.
  intros H01 (E0 & Hmin & Hv1 & B1 & B2) Hx Hcur Ht Hout Hin.
  destruct Ht0 as [H0 _]. destruct Hw as [Hw0 _].
  destruct st as [s0 [v1 ts1] [v2 ts2]]. simpl in *. subst s0.
  rewrite Hmin.
  unfold GetBest, Update, reset_branch, insert_sample, expire_best, IsValid,
    TimeoutExpired, Min.
  decide_tests; lia.
Qed.

Lemma Update_sole_sample_expired x t :
  t0 <= t < 2^64 -> w < t - t0 ->
  GetBest (Update Min (Reset (mkSample v t0)) x t w) = x.
Proof.
  intros Ht Hout. destruct Ht0 as [H0 _].
  unfold GetBest, Update, reset_branch, IsValid, TimeoutExpired, Reset, Min.
  decide_tests; reflexivity.
Qed.

End LeastRecorded.

(** A min-seeking estimator is fed a nonzero value [v] at time [t0] and
    then larger values at non-decreasing timestamps, [early] within a
    quarter window of [t0] and [late] after it.  While the timestamps stay
    within one window length of [t0], [GetBest] returns [v]; at the first
    [Update] that puts [(v, t0)] outside the window it becomes one of the
    larger values, and the least of the [late] values and the new one when
    the first of the [late] values is still inside the window. *)
Lemma least_recorded_promoted w v t0 early late :
  is_uint64 w -> is_uint64 t0 -> v <> 0 ->
  nondecreasing_from t0 (early ++ late) ->
  Forall (fun u => v < fst u) (early ++ late) ->
  last_timestamp t0 (early ++ late) < 2^64 ->
  last_timestamp t0 (early ++ late) - t0 <= w ->
  Forall (fun u => snd u - t0 <= w / 4) early ->
  starts_after (t0 + w / 4) late ->
  let st := run WindowedMinCompare w
                (Update WindowedMinCompare initial v t0 w) (early ++ late) in
  GetBest st = v /\
  forall x t,
    v < x -> last_timestamp t0 (early ++ late) <= t < 2^64 -> w < t - t0 ->
    In (GetBest (Update WindowedMinCompare st x t w))
       (x :: map fst (early ++ late)) /\
    v < GetBest (Update WindowedMinCompare st x t w) /\
    (starts_within t w late ->
     GetBest (Update WindowedMinCompare st x t w)
     = next_best_observed x (map fst late)).
Proof.
  intros Hw Ht0 Hv Hnd Hall Hmax Hwin Hq Hlate st.
  assert (Hinit : holds_best v t0 [] t0
                    (Update WindowedMinCompare initial v t0 w)).
  { repeat split; simpl; try lia; left; reflexivity. }
  pose proof (run_holds_best w v t0 Ht0 (early ++ late) [] t0 _ Hv Hinit Hnd Hall Hmax Hwin)
    as Hrun.
  simpl in Hrun. fold st in Hrun.
  split.
  { destruct Hrun as (E0 & _). unfold GetBest. rewrite E0. reflexivity. }
  intros x t Hx [Hlast Ht] Hout.
  pose proof (Update_replaces_best w v t0 Hw Ht0 (early ++ late) _ st x t Hrun Hlast Ht Hout)
    as Hin.
  split; [exact Hin|]. split.
  { destruct Hin as [Hin | Hin]; [rewrite <- Hin; exact Hx|].
    apply in_map_iff in Hin as (u & Hu & Hin).
    rewrite Forall_forall in Hall. rewrite <- Hu. apply Hall.
    apply list_elem_of_In. exact Hin. }
  intros Hwithin.
  destruct (nondecreasing_app t0 early late Hnd) as [Hnd1 Hnd2].
  apply Forall_app in Hall as [Hall1 Hall2].
  rewrite last_timestamp_app in Hmax, Hwin, Hlast.
  pose proof (nondecreasing_last t0 early Hnd1) as Hle1.
  pose proof (nondecreasing_last _ late Hnd2) as Hle2.
  pose proof Ht0 as [H0 _]. pose proof Hw as [Hw0 _].
  assert (Hquarter : 0 <= w / 4) by (apply Z.div_pos; lia).
  assert (Est : st = run WindowedMinCompare w (Reset (mkSample v t0)) late).
  { unfold st. rewrite run_append.
    change (Update WindowedMinCompare initial v t0 w) with (Reset (mkSample v t0)).
    rewrite (run_early_ignored w v t0 Hw Ht0 Hv early t0); auto; lia. }
  rewrite Est. clear Est Hrun Hin.
  destruct late as [| [y t1] rest].
  - simpl. apply (Update_sole_sample_expired w v t0 Ht0 Hv); simpl in *; lia.
  - simpl in Hlate, Hwithin. destruct Hnd2 as [Ht1 Hnd2].
    rewrite last_timestamp_cons in *.
    pose proof (nondecreasing_last t1 rest Hnd2) as Hle3.
    inversion Hall2 as [| ? ? Hy Hall2']; subst. simpl in Hy.
    cbn [run].
    assert (Hfirst : tracks_least v t0 t1 [(y, t1)] t1
                       (Update WindowedMinCompare (Reset (mkSample v t0)) y t1 w))
      by (apply (Update_first_late w v t0 Ht0 Hv); lia).
    pose proof (run_tracks_least w v t0 Ht0 Hv t1 rest [(y, t1)] t1 _
                  ltac:(lia) Hfirst Hnd2 Hall2' Hmax Hwin) as Htr.
    apply (Update_promotes_least w v t0 Hw Ht0 Hv t1 _ _ _ x t ltac:(lia) Htr);
      lia.
Qed.

Lemma quarter_split bound us :
  exists early,
    us = early ++ recorded_after bound us /\
    Forall (fun u => snd u <= bound) early /\
    starts_after bound (recorded_after bound us).
Proof.
  induction us as [| [y t1] rest IH].
  - exists []. simpl. auto.
  - cbn [recorded_after snd]. destruct (Z.leb_spec t1 bound) as [Hle | Hgt].
    + destruct IH as (early & E & Hq & Hlate).
      exists ((y, t1) :: early). split; [simpl; congruence|].
      split; [constructor; [exact Hle | exact Hq] | exact Hlate].
    + exists []. split; [reflexivity|]. split; [constructor | exact Hgt].
Qed.




End WindowedMinMaxSpec.

(** ** PCG PRNG *)

Module PCGRandomSpec.
Import PCGRandom.

(** [Seed] overwrites both members before it reads them. *)
Lemma Seed_forgets g1 g2 y x : Seed g1 y x = Seed g2 y x.
Proof. reflexivity. Qed.

Lemma outputs_nth k : forall g i,
  (i < k)%nat -> nth i (outputs k g) 0 = nth_output i g.
Proof.
  induction k as [| k IH]; intros g i Hi; [lia|].
  cbn [outputs]. destruct (Next g) as [g' r] eqn:E.
  destruct i as [| i]; cbn [nth].
  - unfold nth_output. cbn [skip]. rewrite E. reflexivity.
  - rewrite IH by lia. unfold nth_output. cbn [skip]. rewrite E. reflexivity.
Qed.

Lemma Next_uint32 g : is_uint32 (snd (Next g)).
Proof.
  unfold Next, is_uint32. simpl.
  set (xs := wrap32 (Z.shiftr (Z.lxor (Z.shiftr (State g) 18) (State g)) 27)).
  set (rot := wrap32 (Z.shiftr (State g) 59)).
  pose proof (wrap32_range (Z.shiftr (Z.lxor (Z.shiftr (State g) 18) (State g)) 27)) as Hxs.
  pose proof (wrap32_range (Z.shiftr (State g) 59)) as Hrot.
  fold xs in Hxs. fold rot in Hrot.
  set (hi := wrap32 (Z.shiftl xs (Z.land (wrap32 (- rot)) 31))).
  pose proof (wrap32_range (Z.shiftl xs (Z.land (wrap32 (- rot)) 31))) as Hhi.
  fold hi in Hhi.
  assert (Hlo : 0 <= Z.shiftr xs rot < 2^32).
  { rewrite Z.shiftr_div_pow2 by lia. split.
    - apply Z.div_pos; [lia|]. apply Z.pow_pos_nonneg; lia.
    - apply Z.div_lt_upper_bound; [apply Z.pow_pos_nonneg; lia|].
      assert (0 < 2 ^ rot) by (apply Z.pow_pos_nonneg; lia). nia. }
  split.
  - apply Z.lor_nonneg. lia.
  - destruct (Z.eq_dec (Z.lor (Z.shiftr xs rot) hi) 0) as [E | E]; [rewrite E; lia|].
    apply Z.log2_lt_pow2; [pose proof (Z.lor_nonneg (Z.shiftr xs rot) hi); lia|].
    rewrite Z.log2_lor by lia.
    apply Z.max_lub_lt.
    + destruct (Z.eq_dec (Z.shiftr xs rot) 0) as [E0 | E0]; [rewrite E0; simpl; lia|].
      apply Z.log2_lt_pow2; lia.
    + destruct (Z.eq_dec hi 0) as [E0 | E0]; [rewrite E0; simpl; lia|].
      apply Z.log2_lt_pow2; lia.
Qed.

(** C10: two generators seeded with the same pair [(y, x)], whatever they
    held before, produce the same sequence of [Next()] results; the [k]-th
    result is the same function of [(y, x, k)] for both, and it is a 32-bit
    word. *)
Theorem C10_Seed_deterministic g1 g2 y x k :
  outputs k (Seed g1 y x) = outputs k (Seed g2 y x) /\
  nth_output k (Seed g1 y x) = nth_output k (Seed fresh y x) /\
  nth_output k (Seed g2 y x) = nth_output k (Seed fresh y x) /\
  is_uint32 (nth_output k (Seed g1 y x)).
Proof.
  rewrite (Seed_forgets g1 fresh), (Seed_forgets g2 fresh).
  repeat split; try reflexivity; apply (Next_uint32 (skip k (Seed fresh y x))).
Qed.

End PCGRandomSpec.

(** * Further properties *)

(** ** LightVector *)

Module LightVectorExtra.
Import LightVector LightVectorSpec.

Section Elements.
Context {T : Type}.
Implicit Types (w : World T) (xs : list T) (grant : nat -> Z -> bool).


Lemma GetRef_data w l i :
  data w = Some l -> 0 <= i -> GetRef i w = l !! Z.to_nat i.
Proof.
  intros Hl Hi. unfold GetRef. destruct (Z.ltb_spec i 0); [lia|].
  rewrite Hl. reflexivity.
Qed.

Lemma allocations_refused w : allocations w (refused w) = 1.
Proof. unfold allocations, refused. simpl. lia. Qed.

(** X9: as long as three times the requested size fits [unsigned], and
    the argument of [Append] refers to an initialized object that is still
    there when it is read (outside the vector, or in the preallocated
    array, or in any array when the vector has spare capacity), each of
    [SetSize_NoCopy], [SetSize_Copy], [Append] and [Clear] returns (no
    undefined behaviour), keeps [Size <= Allocated] with one array alive at
    most, never lowers the capacity and never goes back from a heap array
    to the preallocated one; on success [Size] is the requested size, on
    failure it is unchanged. *)
Theorem calls_keep_class_invariant grant c w :
  well_formed w ->
  0 <= requested c w -> requested c w * 3 < 2^32 ->
  argument_survives c w ->
  exists ok w',
    perform grant c w = Returns ok w' /\
    well_formed w' /\
    Allocated (fst w) <= Allocated (fst w') /\
    (DataPtr (fst w) <> PreallocatedPtr -> DataPtr (fst w') <> PreallocatedPtr) /\
    (ok = true -> Size (fst w') = requested c w) /\
    (ok = false -> Size (fst w') = Size (fst w)).
Proof.
  intros Hwf H0 H3 Harg.
  destruct (perform_sound grant c w Hwf H0 H3 Harg) as (ok & w' & Hrun & Hf & Ht).
  exists ok, w'. split; [exact Hrun|].
  destruct ok.
  - destruct (Ht eq_refl) as (Hwf' & HS & HA & HP & _).
    split; [exact Hwf'|]. split; [exact HA|]. split; [exact HP|].
    split; [intros _; exact HS | discriminate].
  - rewrite (Hf eq_refl). split; [apply refused_well_formed, Hwf|].
    simpl. split; [lia|]. split; [tauto|]. split; [discriminate | reflexivity].
Qed.


(** X11: as long as three times the requested size fits [unsigned], a
    successful [SetSize_Copy] leaves every element below the old [Size]
    readable with its old value, whether it grew, shrank or did neither. *)
Theorem SetSize_Copy_keeps_elements grant w elements w' :
  well_formed w -> 0 <= elements -> elements * 3 < 2^32 ->
  SetSize_Copy grant elements w = Returns true w' ->
  Size (fst w') = elements /\
  forall index, 0 <= index < Size (fst w) -> GetRef index w' = GetRef index w.
Proof.
  intros Hwf H0 H3 Hrun.
  destruct (SetSize_Copy_sound grant w elements Hwf H0 H3)
    as (ok & w2 & Hrun2 & _ & Ht).
  rewrite Hrun in Hrun2. inversion Hrun2; subst ok w2. clear Hrun2.
  destruct (Ht eq_refl) as ((_ & HS & _) & old & new & Hold & Hnew & Hkeep).
  split; [exact HS|]. intros i Hi.
  rewrite (GetRef_data w' new i Hnew), (GetRef_data w old i Hold) by lia.
  rewrite <- (lookup_take_lt new (Z.to_nat (Size (fst w)))) by lia.
  rewrite <- (lookup_take_lt old (Z.to_nat (Size (fst w)))) by lia.
  rewrite Hkeep. reflexivity.
Qed.

(** X12: a successful [SetSize_NoCopy] beyond the capacity moves to a
    new heap array, the only one alive afterwards, in which every element is
    uninitialized: no old value is kept. *)
Theorem SetSize_NoCopy_growth_discards grant w elements w' :
  well_formed w ->
  Allocated (fst w) < elements ->
  SetSize_NoCopy grant elements w = Returns true w' ->
  Size (fst w') = elements /\
  DataPtr (fst w') = HeapPtr (news (snd w)) /\
  (exists l, blocks (snd w') = {[ news (snd w) := l ]}) /\
  forall index, 0 <= index < Allocated (fst w') -> GetRef index w' = Some None.
Proof.
  intros Hwf Hout Hrun.
  destruct (grant (news (snd w)) (wrap32 (elements * 3) / 2)) eqn:Hg.
  - rewrite (SetSize_NoCopy_granted grant w elements Hwf Hout Hg) in Hrun.
    inversion Hrun; subst w'. clear Hrun. simpl.
    split; [reflexivity|]. split; [reflexivity|]. split; [eauto|].
    intros i Hi. unfold GetRef. destruct (Z.ltb_spec i 0); [lia|].
    unfold data. simpl. rewrite lookup_singleton_eq. simpl.
    apply lookup_replicate_2. lia.
  - rewrite (SetSize_NoCopy_refused grant w elements Hout Hg) in Hrun.
    discriminate Hrun.
Qed.

(** [Append] into spare capacity. *)
Lemma Append_within grant w rhs :
  well_formed w ->
  Size (fst w) < Allocated (fst w) -> Size (fst w) + 1 < 2^32 ->
  exists w' old,
    Append grant (external rhs) w = Returns true w' /\
    data w = Some old /\
    data w' = Some (<[Z.to_nat (Size (fst w)) := Some rhs]> old) /\
    well_formed w' /\
    Size (fst w') = Size (fst w) + 1 /\
    Allocated (fst w') = Allocated (fst w) /\
    DataPtr (fst w') = DataPtr (fst w) /\
    news (snd w') = news (snd w).
Proof.
  intros Hwf Hroom Hmax. pose proof Hwf as (HS & HP & HD).
  destruct (well_formed_data w Hwf) as (old & Hold & Hlen).
  rewrite Append_external. unfold bind, this.
  rewrite (wrap32_small (Size (fst w) + 1)) by lia.
  rewrite SetSize_Copy_within by lia. simpl.
  replace (Size (fst w) + 1 - 1) with (Size (fst w)) by lia.
  rewrite wrap32_small by lia.
  assert (Hwf1 : well_formed (with_Size (Size (fst w) + 1) w)).
  { unfold well_formed, with_Size in *. simpl. split; [lia|]. tauto. }
  assert (Hold1 : data (with_Size (Size (fst w) + 1) w) = Some old).
  { unfold data, with_Size, load in *. simpl. exact Hold. }
  destruct (store_sound grant _ (Size (fst w)) rhs old Hwf1 Hold1)
    as (w2 & Hstore & Hdata2 & Hwf2 & ES & EA & EP & En); [simpl; lia|].
  simpl in Hstore. rewrite Hstore.
  exists w2, old.
  exact (conj eq_refl (conj Hold (conj Hdata2 (conj Hwf2
          (conj ES (conj EA (conj EP En))))))).
Qed.


Lemma on_demand_within grant req w w' :
  req <= Allocated (fst w) ->
  news (snd w') = news (snd w) ->
  Allocated (fst w') = Allocated (fst w) ->
  DataPtr (fst w') = DataPtr (fst w) ->
  on_demand grant req w (Returns true w').
Proof.
  intros Hin En EA EP. exists true, w'. split; [reflexivity|].
  unfold allocations. rewrite En, Z.gtb_ltb.
  destruct (Z.ltb_spec (Allocated (fst w)) req); [lia|].
  split; [lia|]. split; [auto | lia].
Qed.

Lemma on_demand_refused grant req w :
  Allocated (fst w) < req ->
  grant (news (snd w)) (req * 3 / 2) = false ->
  on_demand grant req w (Returns false (refused w)).
Proof.
  intros Hout Hg. exists false, (refused w). split; [reflexivity|].
  rewrite allocations_refused, Z.gtb_ltb.
  destruct (Z.ltb_spec (Allocated (fst w)) req); [|lia].
  split; [reflexivity|]. split; [lia|]. intros _.
  split; [symmetry; exact Hg | discriminate].
Qed.

Lemma on_demand_granted grant req w w' :
  Allocated (fst w) < req ->
  grant (news (snd w)) (req * 3 / 2) = true ->
  news (snd w') = S (news (snd w)) ->
  Allocated (fst w') = req * 3 / 2 ->
  DataPtr (fst w') = HeapPtr (news (snd w)) ->
  on_demand grant req w (Returns true w').
Proof.
  intros Hout Hg En EA EP. exists true, w'. split; [reflexivity|].
  unfold allocations. rewrite En, Z.gtb_ltb.
  destruct (Z.ltb_spec (Allocated (fst w)) req); [|lia].
  split; [lia|]. split; [lia|]. intros _.
  split; [symmetry; exact Hg | auto].
Qed.

Lemma SetSize_NoCopy_on_demand grant w elements :
  well_formed w -> 0 <= elements -> elements * 3 < 2^32 ->
  on_demand grant elements w (SetSize_NoCopy grant elements w).
Proof.
  intros Hwf H0 H3. destruct (no_wrap elements H0 H3) as [Hnw _].
  destruct (Z.le_gt_cases elements (Allocated (fst w))) as [Hin | Hout].
  - rewrite SetSize_NoCopy_within by exact Hin.
    apply on_demand_within; auto.
  - destruct (grant (news (snd w)) (elements * 3 / 2)) eqn:Hg.
    + rewrite SetSize_NoCopy_granted by (rewrite ?Hnw; assumption).
      rewrite Hnw. apply on_demand_granted; auto.
    + rewrite SetSize_NoCopy_refused by (rewrite ?Hnw; assumption).
      apply on_demand_refused; assumption.
Qed.

Lemma SetSize_Copy_on_demand grant w elements :
  well_formed w -> 0 <= elements -> elements * 3 < 2^32 ->
  on_demand grant elements w (SetSize_Copy grant elements w).
Proof.
  intros Hwf H0 H3. destruct (no_wrap elements H0 H3) as [Hnw Hle].
  pose proof Hwf as (HS & _).
  destruct (Z.le_gt_cases elements (Allocated (fst w))) as [Hin | Hout].
  - rewrite SetSize_Copy_within by exact Hin.
    apply on_demand_within; auto.
  - destruct (grant (news (snd w)) (elements * 3 / 2)) eqn:Hg.
    + destruct (SetSize_Copy_granted grant w elements Hwf Hout) as (old & _ & Hrun);
        [rewrite Hnw; exact Hg | lia |].
      rewrite Hrun, Hnw. apply on_demand_granted; auto.
    + rewrite SetSize_Copy_refused by (rewrite ?Hnw; assumption).
      apply on_demand_refused; assumption.
Qed.

Lemma Append_on_demand grant w (r : reference T) :
  well_formed w -> (Size (fst w) + 1) * 3 < 2^32 ->
  (exists x, reads r x w) -> survives_growth r w ->
  on_demand grant (Size (fst w) + 1) w (Append grant r w).
Proof.
  intros Hwf H3 [rhs Hr] Hs. pose proof Hwf as (HS & _).
  rewrite (Append_survivor grant w r rhs Hwf H3 Hr Hs).
  destruct (no_wrap (Size (fst w) + 1)) as [Hnw Hle]; [lia | lia |].
  destruct (Z.le_gt_cases (Size (fst w) + 1) (Allocated (fst w))) as [Hin | Hout].
  - destruct (Append_within grant w rhs Hwf) as (w' & old & Hrun & _ & _ & _ & _ & EA & EP & En);
      [lia | lia |].
    rewrite Hrun. apply on_demand_within; auto.
  - destruct (grant (news (snd w)) ((Size (fst w) + 1) * 3 / 2)) eqn:Hg.
    + destruct (SetSize_Copy_granted grant w (Size (fst w) + 1) Hwf Hout)
        as (old & _ & Hrun); [rewrite Hnw; exact Hg | lia |].
      match type of Hrun with
      | _ = Returns true ?x => remember x as w1 eqn:Ew1
      end.
      destruct (SetSize_Copy_sound grant w (Size (fst w) + 1) Hwf)
        as (ok & w1' & Hrun1 & _ & Htrue); [lia | lia |].
      rewrite Hrun in Hrun1. injection Hrun1 as <- <-.
      destruct (Htrue eq_refl) as ((Hwf1 & HS1 & _) & _).
      destruct (well_formed_data w1 Hwf1) as (new & Hnew & Hlen).
      pose proof Hwf1 as (HSA1 & _).
      destruct (store_sound grant w1 (Size (fst w)) rhs new Hwf1 Hnew)
        as (w2 & Hstore & _ & _ & _ & EA & EP & En); [lia|].
      rewrite Append_external. unfold bind, this.
      rewrite (wrap32_small (Size (fst w) + 1)) by lia.
      rewrite Hrun. cbn [negb].
      replace (Size (fst w) + 1 - 1) with (Size (fst w)) by lia.
      rewrite wrap32_small by lia.
      rewrite Hstore.
      rewrite Ew1 in EA, EP, En. simpl in EA, EP, En. rewrite Hnw in EA.
      apply on_demand_granted; auto.
    + rewrite Append_external. unfold bind, this.
      rewrite (wrap32_small (Size (fst w) + 1)) by lia.
      rewrite SetSize_Copy_refused by (rewrite ?Hnw; assumption).
      apply on_demand_refused; assumption.
Qed.

(** X10: as long as three times the requested size fits [unsigned], and
    the argument of [Append] is still there when it is read, a call
    reaches [new] exactly when the requested size exceeds the capacity,
    once, asking for [requested * 3 / 2] elements; it succeeds exactly when
    that is granted and then has this capacity in a new heap array.  A
    request within the capacity always succeeds and keeps capacity and data
    pointer. *)
Theorem calls_allocate_only_to_grow grant c w :
  well_formed w ->
  0 <= requested c w -> requested c w * 3 < 2^32 ->
  argument_survives c w ->
  on_demand grant (requested c w) w (perform grant c w).
Proof.
  intros Hwf H0 H3 Harg. destruct c as [n | n | r |]; simpl in *.
  - apply SetSize_NoCopy_on_demand; assumption.
  - apply SetSize_Copy_on_demand; assumption.
  - destruct Harg as [Hr Hs]. apply Append_on_demand; assumption.
  - pose proof Hwf as (HS & _).
    apply (on_demand_within grant 0 w (with_Size 0 w)); auto; lia.
Qed.


(** With spare capacity no array is released, so an argument that refers
    to an element of the vector is read as what it was. *)
Lemma Append_spare_reads grant w (r : reference T) rhs :
  Size (fst w) < Allocated (fst w) -> 0 <= Size (fst w) ->
  Size (fst w) + 1 < 2^32 ->
  reads r rhs w ->
  Append grant r w = Append grant (external rhs) w.
Proof.
  intros Hroom H0 Hmax Hr.
  destruct r as [y | p i]; [simpl in Hr; subst y; reflexivity|].
  destruct Hr as (Hi & l & Hl & Hx).
  unfold Append, bind, this.
  rewrite (wrap32_small (Size (fst w) + 1)) by lia.
  rewrite SetSize_Copy_within by lia. simpl.
  unfold read. rewrite load_with_Size, Hl.
  destruct (Z.leb_spec 0 i); [|lia]. rewrite Hx. reflexivity.
Qed.

(** X13: [Append] to a vector with spare capacity, of an argument that
    refers to an initialized object of value [rhs], outside the vector or
    an element of it, succeeds whatever the allocator would answer,
    without calling [new]; it stores [rhs] at index [Size], adds one to
    [Size] and leaves every other element as it was. *)
Theorem Append_into_spare_capacity grant w (r : reference T) rhs :
  well_formed w ->
  Size (fst w) < Allocated (fst w) -> Size (fst w) + 1 < 2^32 ->
  reads r rhs w ->
  exists w',
    Append grant r w = Returns true w' /\
    allocations w w' = 0 /\
    GetSize w' = Size (fst w) + 1 /\
    GetRef (Size (fst w)) w' = Some (Some rhs) /\
    forall index, 0 <= index -> index <> Size (fst w) ->
                  GetRef index w' = GetRef index w.
Proof.
  intros Hwf Hroom Hmax Hr. pose proof Hwf as (HS & _).
  rewrite (Append_spare_reads grant w r rhs Hroom) by (assumption || lia).
  destruct (well_formed_data w Hwf) as (old' & Hold' & Hlen).
  destruct (Append_within grant w rhs Hwf Hroom Hmax)
    as (w' & old & Hrun & Hold & Hnew & _ & ES & _ & _ & En).
  rewrite Hold in Hold'. inversion Hold'; subst old'. clear Hold'.
  exists w'. split; [exact Hrun|].
  split; [unfold allocations; rewrite En; lia|].
  split; [exact ES|]. split.
  - rewrite (GetRef_data w' _ _ Hnew) by lia.
    apply list_lookup_insert_eq. lia.
  - intros i Hi Hne.
    rewrite (GetRef_data w' _ _ Hnew), (GetRef_data w _ _ Hold) by lia.
    apply list_lookup_insert_ne. lia.
Qed.

Lemma append_all_within grant xs : forall w ys,
  well_formed w -> stored ys w ->
  Size (fst w) + Z.of_nat (length xs) <= Allocated (fst w) ->
  Allocated (fst w) < 2^32 ->
  exists w',
    append_all grant xs w = Returns true w' /\
    well_formed w' /\ stored (ys ++ xs) w' /\
    Allocated (fst w') = Allocated (fst w) /\
    DataPtr (fst w') = DataPtr (fst w) /\
    news (snd w') = news (snd w).
Proof.
  induction xs as [| x xs IH]; intros w ys Hwf Hst Hfit Hmax.
  - exists w. rewrite app_nil_r.
    exact (conj eq_refl (conj Hwf (conj Hst (conj eq_refl (conj eq_refl eq_refl))))).
  - cbn [append_all length] in *. unfold bind.
    destruct (well_formed_data w Hwf) as (old' & Hold' & Hlen).
    destruct (Append_within grant w x Hwf)
      as (w1 & old & Hrun & Hold & Hnew & Hwf1 & ES & EA & EP & En); [lia | lia |].
    rewrite Hold in Hold'. inversion Hold'; subst old'. clear Hold'.
    pose proof Hwf as (HS & _).
    assert (Hst1 : stored (ys ++ [x]) w1).
    { apply (stored_append w w1 ys x Hst ES).
      exists old, (<[Z.to_nat (Size (fst w)) := Some x]> old).
      split; [exact Hold|]. split; [exact Hnew|]. split.
      - apply take_insert_ge. lia.
      - apply list_lookup_insert_eq. lia. }
    rewrite Hrun.
    destruct (IH w1 (ys ++ [x]) Hwf1 Hst1) as (w2 & Hrun2 & Hwf2 & Hst2 & EA2 & EP2 & En2);
      [lia | lia |].
    exists w2. rewrite <- app_assoc in Hst2. simpl in Hst2.
    split; [exact Hrun2|]. split; [exact Hwf2|]. split; [exact Hst2|].
    split; [lia|]. split; congruence.
Qed.

(** X14: up to [kPreallocated] = 25 elements appended to a new vector
    are kept in the preallocated array: every [Append] succeeds even with an
    allocator that refuses everything, [new] is never called, the free store
    stays empty, and the values read back in order. *)
Theorem preallocated_elements_need_no_heap grant xs :
  Z.of_nat (length xs) <= kPreallocated ->
  exists w',
    append_all grant xs fresh = Returns true w' /\
    DataPtr (fst w') = PreallocatedPtr /\
    blocks (snd w') = ∅ /\ news (snd w') = 0%nat /\
    GetSize w' = Z.of_nat (length xs) /\
    forall i x, xs !! i = Some x -> GetRef (Z.of_nat i) w' = Some (Some x).
Proof.
  intros Hlen.
  destruct (append_all_within grant xs fresh [] fresh_well_formed fresh_stored)
    as (w' & Hrun & Hwf' & Hst & EA & EP & En).
  { simpl. exact Hlen. }
  { simpl. unfold kPreallocated. lia. }
  simpl in Hst, EP, En.
  exists w'. split; [exact Hrun|]. split; [exact EP|].
  split.
  { destruct Hwf' as (_ & _ & HD). rewrite EP in HD. apply HD. }
  split; [exact En|]. split; [apply Hst|].
  intros i x Hi. eapply stored_GetRef; eauto.
Qed.

(** X15: [Clear] keeps the storage: after it, as many elements as the
    capacity can be appended without a call of [new], with the same data
    pointer and capacity, and they read back in order. *)
Theorem Clear_keeps_capacity_for_reuse grant w xs :
  well_formed w -> Allocated (fst w) < 2^32 ->
  Z.of_nat (length xs) <= Allocated (fst w) ->
  exists w',
    bind Clear (fun _ => append_all grant xs) w = Returns true w' /\
    allocations w w' = 0 /\
    Allocated (fst w') = Allocated (fst w) /\
    DataPtr (fst w') = DataPtr (fst w) /\
    GetSize w' = Z.of_nat (length xs) /\
    forall i x, xs !! i = Some x -> GetRef (Z.of_nat i) w' = Some (Some x).
Proof.
  intros Hwf Hmax Hlen. pose proof Hwf as (HS & HP & HD).
  destruct (well_formed_data w Hwf) as (old & Hold & _).
  assert (Hwf0 : well_formed (with_Size 0 w)).
  { unfold well_formed, with_Size. simpl. split; [lia|]. tauto. }
  assert (Hst0 : stored [] (with_Size 0 w)).
  { split; [reflexivity|]. exists old. split; [exact Hold | reflexivity]. }
  destruct (append_all_within grant xs (with_Size 0 w) [] Hwf0 Hst0)
    as (w' & Hrun & _ & Hst & EA & EP & En); [simpl; lia | exact Hmax |].
  simpl in Hst, EA, EP, En.
  exists w'. split; [exact Hrun|].
  split; [unfold allocations; rewrite En; lia|].
  split; [exact EA|]. split; [exact EP|]. split; [apply Hst|].
  intros i x Hi. eapply stored_GetRef; eauto.
Qed.

(** X20: [Append] reads its argument after [SetSize_Copy] has released
    the old heap array.  On a full heap-backed vector whose growth is
    granted, an argument that refers to an element of the vector itself, as
    in [v.Append(v.GetRef(i))], is read after [delete[]]: undefined
    behaviour, whatever the index. *)
Theorem Append_of_own_element_after_release grant w b index :
  well_formed w ->
  DataPtr (fst w) = HeapPtr b ->
  Size (fst w) = Allocated (fst w) ->
  (Size (fst w) + 1) * 3 < 2^32 ->
  grant (news (snd w)) ((Size (fst w) + 1) * 3 / 2) = true ->
  Append grant (element (HeapPtr b) index) w = Undefined.
Proof.
  intros Hwf Hptr Hfull H3 Hg. pose proof Hwf as (HS & _ & HD).
  rewrite Hptr in HD. destruct HD as (Hb & _).
  destruct (no_wrap (Size (fst w) + 1)) as [Hnw Hle]; [lia | lia |].
  destruct (SetSize_Copy_granted grant w (Size (fst w) + 1) Hwf)
    as (old & _ & Hrun); [lia | rewrite Hnw; exact Hg | lia |].
  unfold Append, bind, this.
  rewrite (wrap32_small (Size (fst w) + 1)) by lia.
  rewrite Hrun. simpl. unfold read, load. simpl.
  rewrite lookup_singleton_ne by lia. reflexivity.
Qed.

(** X16: up to 1431655765 elements, a run of [Append] calls on a new
    vector, each with an argument that is no element of the vector itself,
    returns (no undefined behaviour) and keeps the class invariant; when all
    succeed, [GetSize] is their number and [GetRef(i)] reads the [i]-th
    value appended, whatever reallocations took place. *)
Theorem appended_values_read_back grant xs :
  Z.of_nat (length xs) * 3 < 2^32 ->
  exists ok w',
    append_all grant xs fresh = Returns ok w' /\
    well_formed w' /\
    (ok = true ->
       GetSize w' = Z.of_nat (length xs) /\
       forall i x, xs !! i = Some x -> GetRef (Z.of_nat i) w' = Some (Some x)).
Proof.
  intros H3.
  destruct (append_all_sound grant xs fresh [] fresh_well_formed fresh_stored)
    as (ok & w' & Hrun & Hwf' & Hst); [simpl; lia|].
  exists ok, w'. split; [exact Hrun|]. split; [exact Hwf'|].
  intros Hok. specialize (Hst Hok). simpl in Hst.
  split; [apply Hst|]. intros i x Hi. eapply stored_GetRef; eauto.
Qed.

(** X21: [SetSize_Copy] copies [Size] elements, so the elements a
    shrinking call left behind are lost at the next growth: after a
    successful [SetSize_Copy(n)] with [n] at most the size and a successful
    [SetSize_Copy(m)] with [m] beyond the capacity, the elements below [n]
    read as before and every element from [n] on is uninitialized, also
    those that held a value before the first call. *)
Theorem truncated_elements_not_copied grant w n m w1 w2 :
  well_formed w ->
  0 <= n <= Size (fst w) ->
  Allocated (fst w) < m -> m * 3 < 2^32 ->
  SetSize_Copy grant n w = Returns true w1 ->
  SetSize_Copy grant m w1 = Returns true w2 ->
  Size (fst w2) = m /\
  (forall index, 0 <= index < n -> GetRef index w2 = GetRef index w) /\
  (forall index, n <= index < m * 3 / 2 -> GetRef index w2 = Some None).
Proof.
  intros Hwf Hn Hm H3 Hrun1 Hrun2. pose proof Hwf as (HS & HP & HD).
  rewrite SetSize_Copy_within in Hrun1 by lia.
  inversion Hrun1; subst w1. clear Hrun1.
  assert (Hwf1 : well_formed (with_Size n w)).
  { unfold well_formed, with_Size. simpl. split; [lia|]. tauto. }
  destruct (no_wrap m) as [Hnw Hle]; [lia | lia |].
  destruct (grant (news (snd (with_Size n w))) (wrap32 (m * 3) / 2)) eqn:Hg.
  2:{ rewrite SetSize_Copy_refused in Hrun2 by (simpl; assumption || lia).
      discriminate. }
  destruct (SetSize_Copy_granted grant (with_Size n w) m Hwf1)
    as (old & Hold & Hrun); [simpl; lia | exact Hg | simpl; lia |].
  rewrite Hrun in Hrun2. inversion Hrun2; subst w2. clear Hrun2 Hrun.
  simpl. split; [reflexivity|].
  assert (Hold' : data w = Some old) by exact Hold.
  destruct (well_formed_data w Hwf) as (old2 & Hold2 & Hlen).
  rewrite Hold' in Hold2. inversion Hold2; subst old2. clear Hold2.
  rewrite Hnw.
  split; intros i Hi.
  - rewrite (GetRef_data w old i Hold') by lia.
    unfold GetRef. destruct (Z.ltb_spec i 0); [lia|].
    unfold data, load. simpl. rewrite lookup_singleton_eq. simpl.
    rewrite lookup_app_l by (rewrite length_take; lia).
    apply lookup_take_lt. lia.
  - unfold GetRef. destruct (Z.ltb_spec i 0); [lia|].
    unfold data, load. simpl. rewrite lookup_singleton_eq. simpl.
    rewrite lookup_app_r by (rewrite length_take; lia).
    rewrite length_take, lookup_drop.
    apply lookup_replicate_2. lia.
Qed.

End Elements.

Lemma with_Size_fresh_well_formed (n : Z) :
  0 <= n <= 25 -> well_formed (with_Size n (@fresh Z)).
Proof.
  intros Hn. unfold well_formed, with_Size, fresh, constructed, kPreallocated.
  simpl. repeat split; lia.
Qed.

Lemma full_preallocated_well_formed :
  well_formed (mkLightVector (replicate 25 (Some 1)) 25 PreallocatedPtr 25,
               mkHeap (T:=Z) ∅ 0).
Proof. unfold well_formed, kPreallocated. simpl. repeat split; lia. Qed.

Lemma full_heap_well_formed :
  well_formed (mkLightVector (replicate 25 None) 39 (HeapPtr 0) 39,
               mkHeap (T:=Z) {[ 0%nat := replicate 39 (Some 1) ]} 1).
Proof.
  unfold well_formed, kPreallocated. simpl.
  split; [lia|]. split; [reflexivity|]. split; [lia|].
  eexists. split; reflexivity.
Qed.

Lemma calls_keep_class_invariant_witness :
  let w := (mkLightVector (replicate 25 (Some 1)) 25 PreallocatedPtr 25,
            mkHeap ∅ 0) : World Z in
  let c := call_Append (element PreallocatedPtr 0) in
  (well_formed w /\ 0 <= requested c w /\ requested c w * 3 < 2^32 /\
   argument_survives c w) /\
  exists ok w',
    perform always c w = Returns ok w' /\
    well_formed w' /\
    Allocated (fst w) <= Allocated (fst w') /\
    (DataPtr (fst w) <> PreallocatedPtr -> DataPtr (fst w') <> PreallocatedPtr) /\
    (ok = true -> Size (fst w') = requested c w) /\
    (ok = false -> Size (fst w') = Size (fst w)).
Proof.
  intros w c.
  assert (Hwf : well_formed w) by exact full_preallocated_well_formed.
  assert (H0 : 0 <= requested c w) by (simpl; lia).
  assert (H3 : requested c w * 3 < 2^32) by (simpl; lia).
  assert (Harg : argument_survives c w).
  { split; [|left; reflexivity].
    exists 1. split; [lia|]. eexists. split; reflexivity. }
  split; [auto|].
  exact (calls_keep_class_invariant always c w Hwf H0 H3 Harg).
Defined.

Lemma calls_allocate_only_to_grow_witness :
  let w := (mkLightVector (replicate 25 None) 39 (HeapPtr 0) 39,
            mkHeap {[ 0%nat := replicate 39 (Some 1) ]} 1) : World Z in
  let c := call_Append (external 7) in
  (well_formed w /\ 0 <= requested c w /\ requested c w * 3 < 2^32 /\
   argument_survives c w) /\
  on_demand always 40 w (perform always c w).
Proof.
  intros w c.
  assert (Hwf : well_formed w) by exact full_heap_well_formed.
  assert (H0 : 0 <= requested c w) by (simpl; lia).
  assert (H3 : requested c w * 3 < 2^32) by (simpl; lia).
  assert (Harg : argument_survives c w) by (split; [exists 7; reflexivity | exact I]).
  split; [auto|].
  exact (calls_allocate_only_to_grow always c w Hwf H0 H3 Harg).
Defined.

Lemma Append_of_own_element_after_release_witness :
  let w := (mkLightVector (replicate 25 None) 39 (HeapPtr 0) 39,
            mkHeap {[ 0%nat := replicate 39 (Some 1) ]} 1) : World Z in
  (well_formed w /\ DataPtr (fst w) = HeapPtr 0 /\
   Size (fst w) = Allocated (fst w) /\ (Size (fst w) + 1) * 3 < 2^32 /\
   always (news (snd w)) ((Size (fst w) + 1) * 3 / 2) = true) /\
  GetRef 0 w = Some (Some 1) /\
  Append always (element (HeapPtr 0) 0) w = Undefined.
Proof.
  intros w.
  assert (Hwf : well_formed w) by exact full_heap_well_formed.
  assert (H3 : (Size (fst w) + 1) * 3 < 2^32) by (simpl; lia).
  split.
  { split; [exact Hwf|]. split; [reflexivity|]. split; [reflexivity|].
    split; [exact H3 | reflexivity]. }
  split; [reflexivity|].
  exact (Append_of_own_element_after_release always w 0 0 Hwf eq_refl eq_refl H3 eq_refl).
Defined.

Lemma SetSize_Copy_keeps_elements_witness :
  let w := (mkLightVector (Some 7 :: Some 8 :: replicate 23 None) 2
                          PreallocatedPtr 25, mkHeap ∅ 0) : World Z in
  let w' := (mkLightVector (Some 7 :: Some 8 :: replicate 23 None) 30
                           (HeapPtr 0) 45,
             mkHeap {[ 0%nat := Some 7 :: Some 8 :: replicate 43 None ]} 1)
            : World Z in
  (well_formed w /\ 0 <= 30 /\ 30 * 3 < 2^32 /\
   SetSize_Copy always 30 w = Returns true w') /\
  Size (fst w') = 30 /\
  forall index, 0 <= index < Size (fst w) -> GetRef index w' = GetRef index w.
Proof.
  intros w w'.
  assert (Hwf : well_formed w).
  { unfold well_formed, w, kPreallocated. simpl. repeat split; lia. }
  assert (Hrun : SetSize_Copy always 30 w = Returns true w')
    by (vm_compute; reflexivity).
  split; [split; [exact Hwf|]; split; [lia|]; split; [lia | exact Hrun]|].
  apply (SetSize_Copy_keeps_elements always w 30 w' Hwf); [lia | lia | exact Hrun].
Defined.

Lemma SetSize_NoCopy_growth_discards_witness :
  let w := (mkLightVector (Some 7 :: Some 8 :: replicate 23 None) 2
                          PreallocatedPtr 25, mkHeap ∅ 0) : World Z in
  let w' := (mkLightVector (Some 7 :: Some 8 :: replicate 23 None) 30
                           (HeapPtr 0) 45,
             mkHeap {[ 0%nat := replicate 45 None ]} 1) : World Z in
  (well_formed w /\ Allocated (fst w) < 30 /\
   SetSize_NoCopy always 30 w = Returns true w') /\
  Size (fst w') = 30 /\
  DataPtr (fst w') = HeapPtr (news (snd w)) /\
  (exists l, blocks (snd w') = {[ news (snd w) := l ]}) /\
  forall index, 0 <= index < Allocated (fst w') -> GetRef index w' = Some None.
Proof.
  intros w w'.
  assert (Hwf : well_formed w).
  { unfold well_formed, w, kPreallocated. simpl. repeat split; lia. }
  assert (Hout : Allocated (fst w) < 30) by (simpl; lia).
  assert (Hrun : SetSize_NoCopy always 30 w = Returns true w')
    by (vm_compute; reflexivity).
  split; [auto|].
  exact (SetSize_NoCopy_growth_discards always w 30 w' Hwf Hout Hrun).
Defined.

Lemma Append_into_spare_capacity_witness :
  let w := (mkLightVector (Some 7 :: Some 8 :: replicate 23 None) 2
                          PreallocatedPtr 25, mkHeap ∅ 0) : World Z in
  let r := element PreallocatedPtr 0 in
  (well_formed w /\ Size (fst w) < Allocated (fst w) /\
   Size (fst w) + 1 < 2^32 /\ reads r 7 w) /\
  exists w',
    Append never r w = Returns true w' /\
    allocations w w' = 0 /\
    GetSize w' = Size (fst w) + 1 /\
    GetRef (Size (fst w)) w' = Some (Some 7) /\
    forall index, 0 <= index -> index <> Size (fst w) ->
                  GetRef index w' = GetRef index w.
Proof.
  intros w r.
  assert (Hwf : well_formed w).
  { unfold well_formed, w, kPreallocated. simpl. repeat split; lia. }
  assert (Hroom : Size (fst w) < Allocated (fst w)) by (simpl; lia).
  assert (Hmax : Size (fst w) + 1 < 2^32) by (simpl; lia).
  assert (Hr : reads r 7 w).
  { split; [lia|]. eexists. split; reflexivity. }
  split; [auto|].
  exact (Append_into_spare_capacity never w r 7 Hwf Hroom Hmax Hr).
Defined.

Lemma preallocated_elements_need_no_heap_witness :
  Z.of_nat (length [4; 5; 6]) <= kPreallocated /\
  exists w',
    append_all never [4; 5; 6] fresh = Returns true w' /\
    DataPtr (fst w') = PreallocatedPtr /\
    blocks (snd w') = ∅ /\ news (snd w') = 0%nat /\
    GetSize w' = Z.of_nat (length [4; 5; 6]) /\
    forall i x, [4; 5; 6] !! i = Some x -> GetRef (Z.of_nat i) w' = Some (Some x).
Proof.
  assert (H : Z.of_nat (length [4; 5; 6]) <= kPreallocated)
    by (unfold kPreallocated; simpl; lia).
  split; [exact H|].
  exact (preallocated_elements_need_no_heap never [4; 5; 6] H).
Defined.

Lemma Clear_keeps_capacity_for_reuse_witness :
  let w := (mkLightVector (replicate 25 None) 30 (HeapPtr 0) 45,
            mkHeap {[ 0%nat := replicate 45 (Some 1) ]} 1) : World Z in
  (well_formed w /\ Allocated (fst w) < 2^32 /\
   Z.of_nat (length [4; 5]) <= Allocated (fst w)) /\
  exists w',
    bind Clear (fun _ => append_all never [4; 5]) w = Returns true w' /\
    allocations w w' = 0 /\
    Allocated (fst w') = Allocated (fst w) /\
    DataPtr (fst w') = DataPtr (fst w) /\
    GetSize w' = Z.of_nat (length [4; 5]) /\
    forall i x, [4; 5] !! i = Some x -> GetRef (Z.of_nat i) w' = Some (Some x).
Proof.
  intros w.
  assert (Hwf : well_formed w).
  { unfold well_formed, w, kPreallocated. simpl.
    split; [lia|]. split; [reflexivity|]. split; [lia|].
    eexists. split; reflexivity. }
  assert (Hmax : Allocated (fst w) < 2^32) by (simpl; lia).
  assert (Hlen : Z.of_nat (length [4; 5]) <= Allocated (fst w)) by (simpl; lia).
  split; [auto|].
  exact (Clear_keeps_capacity_for_reuse never w [4; 5] Hwf Hmax Hlen).
Defined.

Lemma appended_values_read_back_witness :
  let xs := map Z.of_nat (seq 0 41) in
  Z.of_nat (length xs) * 3 < 2^32 /\
  (exists ok w',
     append_all always xs fresh = Returns ok w' /\
     well_formed w' /\
     (ok = true ->
        GetSize w' = Z.of_nat (length xs) /\
        forall i x, xs !! i = Some x -> GetRef (Z.of_nat i) w' = Some (Some x))) /\
  match append_all always xs fresh with
  | Returns ok w' =>
      ok = true /\ news (snd w') = 2%nat /\ DataPtr (fst w') = HeapPtr 1 /\
      Allocated (fst w') = 60 /\ GetRef 40 w' = Some (Some 40)
  | Undefined => False
  end.
Proof.
  intros xs.
  assert (H : Z.of_nat (length xs) * 3 < 2^32) by (vm_compute; reflexivity).
  split; [exact H|]. split.
  - exact (appended_values_read_back always xs H).
  - vm_compute. repeat split; reflexivity.
Defined.


Lemma truncated_elements_not_copied_witness :
  let w := (mkLightVector ((Some <$> map Z.of_nat (seq 0 20)) ++ replicate 5 None)
                          20 PreallocatedPtr 25, mkHeap ∅ 0) : World Z in
  let w1 := with_Size 5 w in
  let w2 := (mkLightVector ((Some <$> map Z.of_nat (seq 0 20)) ++ replicate 5 None)
                           30 (HeapPtr 0) 45,
             mkHeap {[ 0%nat := (Some <$> map Z.of_nat (seq 0 5)) ++
                                replicate 40 None ]} 1) : World Z in
  (well_formed w /\ 0 <= 5 <= Size (fst w) /\ Allocated (fst w) < 30 /\
   30 * 3 < 2^32 /\
   SetSize_Copy always 5 w = Returns true w1 /\
   SetSize_Copy always 30 w1 = Returns true w2) /\
  (GetRef 10 w = Some (Some 10) /\ GetRef 10 w2 = Some None) /\
  Size (fst w2) = 30 /\
  (forall index, 0 <= index < 5 -> GetRef index w2 = GetRef index w) /\
  (forall index, 5 <= index < 30 * 3 / 2 -> GetRef index w2 = Some None).
Proof.
  intros w w1 w2.
  assert (Hwf : well_formed w).
  { unfold well_formed, w, kPreallocated. simpl. repeat split; lia. }
  assert (Hn : 0 <= 5 <= Size (fst w)) by (simpl; lia).
  assert (Hm : Allocated (fst w) < 30) by (simpl; lia).
  assert (Hrun1 : SetSize_Copy always 5 w = Returns true w1)
    by (vm_compute; reflexivity).
  assert (Hrun2 : SetSize_Copy always 30 w1 = Returns true w2)
    by (vm_compute; reflexivity).
  split; [split; [exact Hwf|]; split; [exact Hn|]; split; [exact Hm|];
          split; [lia|]; split; [exact Hrun1 | exact Hrun2]|].
  split; [split; vm_compute; reflexivity|].
  apply (truncated_elements_not_copied always w 5 30 w1 w2 Hwf Hn Hm);
    [lia | exact Hrun1 | exact Hrun2].
Defined.

End LightVectorExtra.

(** ** WindowedMinMax *)

Module WindowedMinMaxExtra.
Import WindowedMinMax WindowedMinMaxSpec.

Lemma run_app c w st us vs :
  run c w st (us ++ vs) = run c w (run c w st us) vs.
Proof.
  revert st. induction us as [| [v t] us IH]; intros st; [reflexivity|].
  cbn [app run]. apply IH.
Qed.

Lemma run_snoc c w st us v t :
  run c w st (us ++ [(v, t)]) = Update c (run c w st us) v t w.
Proof. rewrite run_app. reflexivity. Qed.

Lemma Update_initial c v t w : Update c initial v t w = Reset (mkSample v t).
Proof. reflexivity. Qed.

(** *** Streams that keep improving *)

Lemma run_improving c w us : forall s,
  improving_from c (Value s) us ->
  run c w (Reset s) us = Reset (last_sample s us).
Proof.
  induction us as [| [x t] us IH]; intros s Himp; [reflexivity|].
  destruct Himp as [Hx Himp]. cbn [run].
  assert (E : Update c (Reset s) x t w = Reset (mkSample x t)).
  { unfold Update, reset_branch. simpl. rewrite Hx, orb_true_r. reflexivity. }
  rewrite E. apply (IH (mkSample x t)). exact Himp.
Qed.

(** X1: when every value supplied compares as extreme-or-equal to the
    one before it (a constant stream, or one that keeps improving), every
    [Update] resets, so the estimator holds the latest sample in all three
    ranks and [GetBest] is the latest value, whatever the timestamps and the
    window length. *)
Theorem improving_stream_tracks_latest c w v t us :
  improving_from c v us ->
  let st := run c w (Update c initial v t w) us in
  st = Reset (last_sample (mkSample v t) us) /\
  GetBest st = Value (last_sample (mkSample v t) us).
Proof.
  intros Himp st. subst st. rewrite Update_initial.
  rewrite (run_improving c w us (mkSample v t) Himp). split; reflexivity.
Qed.

Lemma improving_stream_tracks_latest_witness :
  improving_from WindowedMaxCompare 4 [(4, 10); (9, 500); (9, 501)] /\
  GetBest (run WindowedMaxCompare 100 (Update WindowedMaxCompare initial 4 0 100)
               [(4, 10); (9, 500); (9, 501)]) = 9.
Proof.
  assert (H : improving_from WindowedMaxCompare 4 [(4, 10); (9, 500); (9, 501)])
    by (simpl; repeat split; reflexivity).
  split; [exact H|].
  exact (proj2 (improving_stream_tracks_latest WindowedMaxCompare 100 4 0 _ H)).
Defined.

(** *** The estimate against the latest value *)

Lemma ranked_of_reachable c st : reachable c st -> ranked c st.
Proof.
  induction 1 as [| st sample _ _ | st value timestamp w _ IH].
  - split; apply Compare_refl.
  - split; apply Compare_refl.
  - apply Update_ranked, IH.
Qed.

(** X2: in a state reached by [Reset] and [Update] calls, the estimate
    after [Update(value, ...)] is at least as extreme as [value]. *)
Theorem best_at_least_latest c st value timestamp w :
  reachable c st ->
  Compare c (GetBest (Update c st value timestamp w)) value = true.
Proof.
  intros Hreach. pose proof (ranked_of_reachable c st Hreach) as Hr.
  unfold GetBest, Update.
  destruct (reset_branch c st value timestamp w) eqn:Hreset.
  { simpl. apply Compare_refl. }
  unfold reset_branch in Hreset.
  apply orb_false_iff in Hreset as [Hreset _].
  apply orb_false_iff in Hreset as [_ Hbest].
  destruct (insert_sample_ranked c st (mkSample value timestamp) Hr Hbest)
    as ([H01 H12] & H1s & H2s).
  simpl in H1s, H2s.
  destruct (TimeoutExpired _ timestamp w).
  - unfold expire_best.
    destruct (TimeoutExpired _ _ w); simpl; assumption.
  - assert (H0s : Compare c (Value (Samples0 (insert_sample c st (mkSample value timestamp)))) value = true)
      by (eapply Compare_trans; eauto).
    unfold age_backups.
    repeat match goal with
           | |- context [if ?b then _ else _] => destruct b
           end; simpl; exact H0s.
Qed.

Lemma best_at_least_latest_witness :
  let st := run WindowedMinCompare 100 initial [(1, 0); (3, 10); (5, 30)] in
  reachable WindowedMinCompare st /\
  Compare WindowedMinCompare (GetBest (Update WindowedMinCompare st 10 101 100)) 10 = true.
Proof.
  intros st.
  assert (H : reachable WindowedMinCompare st)
    by (do 3 apply reach_Update; apply reach_initial).
  split; [exact H|].
  exact (best_at_least_latest WindowedMinCompare st 10 101 100 H).
Defined.


(** *** Where the retained samples come from *)

(** Every sample [Update] leaves is the new one, or an old one the new
    value did not compare as extreme-or-equal to. *)
Lemma Update_survivors (P : Sample -> Prop) c st value timestamp w :
  P (mkSample value timestamp) ->
  (Compare c value (Value (Samples0 st)) = false -> P (Samples0 st)) ->
  (Compare c value (Value (Samples1 st)) = false -> P (Samples1 st)) ->
  (Compare c value (Value (Samples2 st)) = false -> P (Samples2 st)) ->
  P (Samples0 (Update c st value timestamp w)) /\
  P (Samples1 (Update c st value timestamp w)) /\
  P (Samples2 (Update c st value timestamp w)).
Proof.
  intros Hs H0 H1 H2.
  unfold Update, reset_branch, insert_sample, expire_best, age_backups. simpl.
  destruct (Compare c value (Value (Samples0 st))) eqn:E0.
  { rewrite orb_true_r. simpl. auto. }
  specialize (H0 eq_refl). rewrite orb_false_r.
  destruct (negb (IsValid st)); [simpl; auto|]. simpl.
  destruct (TimeoutExpired (Samples2 st) timestamp w); [simpl; auto|].
  destruct (Compare c value (Value (Samples1 st))) eqn:E1;
    [|specialize (H1 eq_refl);
      destruct (Compare c value (Value (Samples2 st))) eqn:E2;
      [|specialize (H2 eq_refl)]];
    simpl;
    repeat match goal with
           | |- context [if ?b then _ else _] => destruct b
           end; simpl; auto.
Qed.

Lemma recorded_new c us value timestamp :
  recorded c (us ++ [(value, timestamp)]) (mkSample value timestamp).
Proof. exists us, []. split; [reflexivity | constructor]. Qed.

Lemma recorded_older c us s value timestamp :
  recorded c us s ->
  Compare c value (Value s) = false ->
  recorded c (us ++ [(value, timestamp)]) s.
Proof.
  intros (pre & post & -> & Hpost) Hc.
  exists pre, (post ++ [(value, timestamp)]). split.
  - rewrite <- app_assoc. reflexivity.
  - apply Forall_app. split; [exact Hpost|]. constructor; [exact Hc | constructor].
Qed.

Lemma run_recorded c w us :
  us <> [] ->
  recorded c us (Samples0 (run c w initial us)) /\
  recorded c us (Samples1 (run c w initial us)) /\
  recorded c us (Samples2 (run c w initial us)).
Proof.
  induction us as [| [v t] us IH] using rev_ind; intros Hne; [congruence|].
  rewrite run_snoc.
  destruct us as [| u us'].
  - simpl. repeat split; exact (recorded_new c [] v t).
  - destruct IH as (R0 & R1 & R2); [discriminate|].
    apply Update_survivors.
    + apply recorded_new.
    + intros Hc. apply recorded_older; assumption.
    + intros Hc. apply recorded_older; assumption.
    + intros Hc. apply recorded_older; assumption.
Qed.

Lemma recorded_In c us s : recorded c us s -> In (Value s, Timestamp s) us.
Proof.
  intros (pre & post & -> & _). apply in_or_app. right. left. reflexivity.
Qed.

(** X4: after one or more [Update] calls on a new estimator, the best
    sample is one of the samples supplied, and no value supplied after it
    compares as extreme-or-equal to it: [GetBest] is the strict extremum of
    the stream from the best sample on. *)
Theorem best_is_extremum_since_recorded c w us :
  us <> [] ->
  let st := run c w initial us in
  exists pre post,
    us = pre ++ (GetBest st, Timestamp (Samples0 st)) :: post /\
    Forall (fun u => Compare c (fst u) (GetBest st) = false /\
                     Compare c (GetBest st) (fst u) = true) post.
Proof.
  intros Hne st.
  destruct (run_recorded c w us Hne) as ((pre & post & E & Hpost) & _).
  exists pre, post. split; [exact E|].
  apply Forall_forall. intros u Hu.
  rewrite Forall_forall in Hpost. specialize (Hpost u Hu).
  split; [exact Hpost | apply Compare_false, Hpost].
Qed.

Lemma best_is_extremum_since_recorded_witness :
  let us := [(1, 0); (3, 10); (5, 30); (10, 101)] in
  let st := run WindowedMinCompare 100 initial us in
  us <> [] /\
  exists pre post,
    us = pre ++ (GetBest st, Timestamp (Samples0 st)) :: post /\
    Forall (fun u => Compare WindowedMinCompare (fst u) (GetBest st) = false /\
                     Compare WindowedMinCompare (GetBest st) (fst u) = true) post.
Proof.
  intros us st.
  assert (H : us <> []) by discriminate.
  split; [exact H|].
  exact (best_is_extremum_since_recorded WindowedMinCompare 100 us H).
Defined.

(** X3: after one or more [Update] calls on a new estimator, each of the
    three retained samples is one of the [(value, timestamp)] pairs
    supplied; if none of the supplied values is 0, [IsValid] is true. *)
Theorem valid_after_nonzero_samples c w us :
  us <> [] ->
  Forall (fun u => fst u <> 0) us ->
  let st := run c w initial us in
  IsValid st = true /\
  In (Value (Samples0 st), Timestamp (Samples0 st)) us /\
  In (Value (Samples1 st), Timestamp (Samples1 st)) us /\
  In (Value (Samples2 st), Timestamp (Samples2 st)) us.
Proof.
  intros Hne Hnz st.
  destruct (run_recorded c w us Hne) as (R0 & R1 & R2).
  apply recorded_In in R0, R1, R2. fold st in R0, R1, R2.
  split; [|auto].
  unfold IsValid. apply negb_true_iff, Z.eqb_neq.
  rewrite Forall_forall in Hnz.
  apply (Hnz (Value (Samples0 st), Timestamp (Samples0 st))).
  apply list_elem_of_In. exact R0.
Qed.

Lemma valid_after_nonzero_samples_witness :
  let us := [(7, 0); (3, 10); (5, 300)] in
  let st := run WindowedMaxCompare 100 initial us in
  (us <> [] /\ Forall (fun u => fst u <> 0) us) /\
  IsValid st = true /\
  In (Value (Samples0 st), Timestamp (Samples0 st)) us /\
  In (Value (Samples1 st), Timestamp (Samples1 st)) us /\
  In (Value (Samples2 st), Timestamp (Samples2 st)) us.
Proof.
  intros us st.
  assert (H : us <> []) by discriminate.
  assert (Hnz : Forall (fun u => fst u <> 0) us)
    by (repeat constructor; simpl; lia).
  split; [split; assumption|].
  exact (valid_after_nonzero_samples WindowedMaxCompare 100 us H Hnz).
Defined.


(** *** Ages of the retained samples *)

Lemma Update_stamps_ordered c st value timestamp w :
  stamps_ordered st -> Timestamp (Samples2 st) <= timestamp ->
  stamps_ordered (Update c st value timestamp w) /\
  Timestamp (Samples2 (Update c st value timestamp w)) <= timestamp.
Proof.
  intros [H01 H12] H2.
  unfold stamps_ordered, Update, insert_sample, expire_best, age_backups.
  repeat match goal with
         | |- context [if ?b then _ else _] => destruct b
         end; simpl; lia.
Qed.

Lemma run_stamps_ordered c w us : forall st t0,
  nondecreasing_from t0 us ->
  stamps_ordered st -> Timestamp (Samples2 st) <= t0 ->
  stamps_ordered (run c w st us) /\
  Timestamp (Samples2 (run c w st us)) <= last_timestamp t0 us.
Proof.
  induction us as [| [v t] us IH]; intros st t0 Hnd Ho H2.
  - split; assumption.
  - destruct Hnd as [Ht Hnd]. rewrite last_timestamp_cons. cbn [run].
    destruct (Update_stamps_ordered c st v t w Ho) as [Ho' H2']; [lia|].
    apply IH; assumption.
Qed.

(** X5: under [Update] calls with non-decreasing timestamps, after an
    [Update] at time [t] the three samples are ordered by time, best oldest
    and third newest, none is newer than [t], and none is expired: all three
    lie inside the window. *)
Theorem retained_samples_ordered_in_window c w us value t :
  is_uint64 w ->
  nondecreasing_from 0 us ->
  last_timestamp 0 us <= t < 2^64 ->
  let st' := Update c (run c w initial us) value t w in
  0 <= Timestamp (Samples0 st') <= Timestamp (Samples1 st') /\
  Timestamp (Samples1 st') <= Timestamp (Samples2 st') <= t /\
  t - Timestamp (Samples0 st') <= w /\
  TimeoutExpired (Samples1 st') t w = false /\
  TimeoutExpired (Samples2 st') t w = false.
Proof.
  intros [Hw _] Hnd [Hlast Ht] st'.
  assert (Hinit : stamps_within 0 0 initial) by (repeat split; simpl; lia).
  pose proof (run_stamps c w us initial 0 Hnd Hinit) as Hrun.
  pose proof (nondecreasing_last 0 us Hnd) as H0.
  assert (Hst : stamps_within 0 t st')
    by (apply (Update_stamps c _ value t w 0 _ Hrun); lia).
  destruct (run_stamps_ordered c w us initial 0 Hnd) as [Ho H2];
    [split; simpl; lia | simpl; lia |].
  destruct (Update_stamps_ordered c (run c w initial us) value t w Ho) as [[H01 H12] H2t];
    [lia|].
  fold st' in H01, H12, H2t.
  pose proof (Update_best_not_expired c (run c w initial us) value t w Hw) as Hne.
  fold st' in Hne.
  destruct Hst as (B0 & B1 & B2).
  unfold TimeoutExpired in *.
  rewrite wrap64_small in Hne by lia. rewrite !wrap64_small by lia.
  rewrite Z.gtb_ltb in *. apply Z.ltb_ge in Hne.
  repeat split; try lia; apply Z.ltb_ge; lia.
Qed.

Lemma retained_samples_ordered_in_window_witness :
  let us := [(1, 0); (3, 10); (5, 30); (7, 90)] in
  let st' := Update WindowedMinCompare (run WindowedMinCompare 100 initial us)
                    10 131 100 in
  (is_uint64 100 /\ nondecreasing_from 0 us /\
   last_timestamp 0 us <= 131 < 2^64) /\
  0 <= Timestamp (Samples0 st') <= Timestamp (Samples1 st') /\
  Timestamp (Samples1 st') <= Timestamp (Samples2 st') <= 131 /\
  131 - Timestamp (Samples0 st') <= 100 /\
  TimeoutExpired (Samples1 st') 131 100 = false /\
  TimeoutExpired (Samples2 st') 131 100 = false.
Proof.
  intros us st'.
  assert (Hw : is_uint64 100) by (unfold is_uint64; lia).
  assert (Hnd : nondecreasing_from 0 us) by (simpl; lia).
  assert (Ht : last_timestamp 0 us <= 131 < 2^64)
    by (unfold last_timestamp; simpl; lia).
  split; [auto|].
  exact (retained_samples_ordered_in_window WindowedMinCompare 100 us 10 131 Hw Hnd Ht).
Defined.

(** X6: when the estimator is valid, the new value does not compare as
    extreme-or-equal to the best one, and neither the third nor the best
    sample is expired, [Update] leaves the best sample in place: inserting
    into the backups and the quarter- and half-window rules never touch
    it. *)
Theorem best_replaced_only_by_reset_or_expiry c st value timestamp w :
  IsValid st = true ->
  Compare c value (GetBest st) = false ->
  TimeoutExpired (Samples2 st) timestamp w = false ->
  TimeoutExpired (Samples0 st) timestamp w = false ->
  Samples0 (Update c st value timestamp w) = Samples0 st /\
  GetBest (Update c st value timestamp w) = GetBest st.
Proof.
  intros Hv Hc H2 H0.
  assert (Hreset : reset_branch c st value timestamp w = false).
  { unfold reset_branch. unfold GetBest in Hc. rewrite Hv, Hc, H2. reflexivity. }
  pose proof (Update_keeps_best c st value timestamp w Hreset H0) as E.
  split; [exact E | unfold GetBest; rewrite E; reflexivity].
Qed.

Lemma best_replaced_only_by_reset_or_expiry_witness :
  let st := mkWMM (mkSample 2 0) (mkSample 2 0) (mkSample 2 0) in
  (IsValid st = true /\ Compare WindowedMinCompare 9 (GetBest st) = false /\
   TimeoutExpired (Samples2 st) 60 100 = false /\
   TimeoutExpired (Samples0 st) 60 100 = false) /\
  Samples0 (Update WindowedMinCompare st 9 60 100) = Samples0 st /\
  GetBest (Update WindowedMinCompare st 9 60 100) = GetBest st.
Proof.
  intros st. split; [repeat split; reflexivity|].
  exact (best_replaced_only_by_reset_or_expiry WindowedMinCompare st 9 60 100
           eq_refl eq_refl eq_refl eq_refl).
Defined.

(** X8: under non-decreasing timestamps, an [Update] that comes more
    than a window length after the one before it resets the estimator to
    the new sample, whatever its value. *)
Theorem silence_longer_than_window_resets c w us value t :
  is_uint64 w ->
  nondecreasing_from 0 us ->
  last_timestamp 0 us <= t < 2^64 ->
  w < t - last_timestamp 0 us ->
  Update c (run c w initial us) value t w = Reset (mkSample value t) /\
  GetBest (Update c (run c w initial us) value t w) = value.
Proof.
  intros [Hw _] Hnd [Hlast Ht] Hgap.
  assert (Hinit : stamps_within 0 0 initial) by (repeat split; simpl; lia).
  destruct (run_stamps c w us initial 0 Hnd Hinit) as (_ & _ & B2).
  assert (Hexp : TimeoutExpired (Samples2 (run c w initial us)) t w = true).
  { unfold TimeoutExpired. rewrite wrap64_small by lia.
    rewrite Z.gtb_ltb. apply Z.ltb_lt. lia. }
  assert (E : Update c (run c w initial us) value t w = Reset (mkSample value t)).
  { unfold Update, reset_branch. rewrite Hexp, orb_true_r. reflexivity. }
  rewrite E. split; reflexivity.
Qed.

Lemma silence_longer_than_window_resets_witness :
  let us := [(1, 0); (3, 10); (5, 30)] in
  (is_uint64 100 /\ nondecreasing_from 0 us /\
   last_timestamp 0 us <= 131 < 2^64 /\ 100 < 131 - last_timestamp 0 us) /\
  Update WindowedMinCompare (run WindowedMinCompare 100 initial us) 9 131 100
    = Reset (mkSample 9 131) /\
  GetBest (Update WindowedMinCompare (run WindowedMinCompare 100 initial us) 9 131 100)
    = 9.
Proof.
  intros us.
  assert (Hw : is_uint64 100) by (unfold is_uint64; lia).
  assert (Hnd : nondecreasing_from 0 us) by (simpl; lia).
  assert (Ht : last_timestamp 0 us <= 131 < 2^64)
    by (unfold last_timestamp; simpl; lia).
  assert (Hgap : 100 < 131 - last_timestamp 0 us)
    by (unfold last_timestamp; simpl; lia).
  split; [auto|].
  exact (silence_longer_than_window_resets WindowedMinCompare 100 us 9 131
           Hw Hnd Ht Hgap).
Defined.

(** *** The clock may wrap around *)

(** X7: the age of a sample is computed modulo 2^64, so the expiry test
    is right across a wrap-around of the clock: for a sample taken at
    [stamp] and a clock that has advanced by [elapsed] since, it compares
    [elapsed] with the timeout. *)
Theorem TimeoutExpired_across_wraparound value stamp elapsed timeout :
  is_uint64 stamp -> is_uint64 elapsed ->
  TimeoutExpired (mkSample value stamp) (wrap64 (stamp + elapsed)) timeout
  = (elapsed >? timeout).
Proof.
  intros Hs He. unfold TimeoutExpired, wrap64. simpl.
  rewrite Zminus_mod_idemp_l.
  replace (stamp + elapsed - stamp) with elapsed by lia.
  rewrite Z.mod_small by exact He. reflexivity.
Qed.

Lemma TimeoutExpired_across_wraparound_witness :
  (is_uint64 (2^64 - 5) /\ is_uint64 20) /\
  TimeoutExpired (mkSample 1 (2^64 - 5)) (wrap64 (2^64 - 5 + 20)) 10 = (20 >? 10).
Proof.
  assert (Hs : is_uint64 (2^64 - 5)) by (unfold is_uint64; lia).
  assert (He : is_uint64 20) by (unfold is_uint64; lia).
  split; [split; assumption|].
  exact (TimeoutExpired_across_wraparound 1 (2^64 - 5) 20 10 Hs He).
Defined.

End WindowedMinMaxExtra.

(** ** PCG PRNG *)

Module PCGRandomExtra.
Import PCGRandom.

Lemma lor_even_1 a : Z.lor (2 * a) 1 = 2 * a + 1.
Proof.
  assert (H : Z.land (2 * a) 1 = 0).
  { change 1 with (Z.ones 1). rewrite Z.land_ones by lia.
    change (2 ^ 1) with 2. rewrite Z.mul_comm. apply Z.mod_mul. lia. }
  rewrite <- Z.lxor_lor by exact H. symmetry. apply Z.add_nocarry_lxor. exact H.
Qed.

Lemma shifted_seed y : wrap64 (Z.shiftl y 1) = 2 * (y mod 2^63).
Proof.
  unfold wrap64. rewrite Z.shiftl_mul_pow2 by lia.
  change (2 ^ 1) with 2. rewrite (Z.mul_comm y 2).
  change (2 ^ 64) with (2 * 2 ^ 63).
  apply Z.mul_mod_distr_l; lia.
Qed.

Lemma Inc_Seed g y x : Inc (Seed g y x) = 2 * (y mod 2^63) + 1.
Proof.
  unfold Seed, Next. simpl. rewrite shifted_seed. apply lor_even_1.
Qed.

Lemma Inc_skip k : forall g, Inc (skip k g) = Inc g.
Proof.
  induction k as [| k IH]; intros g; [reflexivity|].
  cbn [skip]. rewrite IH. reflexivity.
Qed.

(** X17: after [Seed(y, x)] the increment is [2 * (y mod 2^63) + 1], an
    odd 64-bit number, and no [Next] call changes it. *)
Theorem Seed_increment_odd g y x k :
  Inc (skip k (Seed g y x)) = 2 * (y mod 2^63) + 1 /\
  Z.odd (Inc (skip k (Seed g y x))) = true /\
  is_uint64 (Inc (skip k (Seed g y x))).
Proof.
  rewrite Inc_skip, Inc_Seed.
  assert (Hy : 0 <= y mod 2^63 < 2^63) by (apply Z.mod_pos_bound; lia).
  split; [reflexivity|]. split.
  - rewrite Z.add_comm, Z.odd_add_mul_2. reflexivity.
  - unfold is_uint64. lia.
Qed.

(** The state update of [Next] can be undone. *)
Lemma lcg_injective a b c :
  is_uint64 a -> is_uint64 b ->
  wrap64 (a * kMultiplier + c) = wrap64 (b * kMultiplier + c) -> a = b.
Proof.
  intros Ha Hb H. unfold wrap64 in H.
  apply Z.cong_iff_ex in H as (n & Hn).
  assert (E : (a - b) * (kMultiplier * kInverse) = n * kInverse * 2^64).
  { replace ((a - b) * (kMultiplier * kInverse))
      with ((a * kMultiplier + c - (b * kMultiplier + c)) * kInverse) by ring.
    rewrite Hn. ring. }
  replace (kMultiplier * kInverse)
    with (1 + 4787856489426250814 * 2^64) in E by reflexivity.
  unfold is_uint64 in *.
  assert (D : a - b = (n * kInverse - (a - b) * 4787856489426250814) * 2^64)
    by (ring_simplify; ring_simplify in E; lia).
  lia.
Qed.

(** X18: for one increment, [Next] maps different 64-bit states to
    different states: two generators with the same increment that agree
    after a [Next] call agreed before it. *)
Theorem Next_state_injective g1 g2 :
  is_uint64 (State g1) -> is_uint64 (State g2) ->
  Inc g1 = Inc g2 ->
  State (fst (Next g1)) = State (fst (Next g2)) ->
  g1 = g2.
Proof.
  intros H1 H2 Hinc Hst. unfold Next in Hst. simpl in Hst. rewrite Hinc in Hst.
  apply lcg_injective in Hst; [|assumption..].
  destruct g1, g2. simpl in *. congruence.
Qed.

Lemma Next_state_injective_witness :
  (is_uint64 (State (mkPCG 5 7)) /\ is_uint64 (State (mkPCG 5 7)) /\
   Inc (mkPCG 5 7) = Inc (mkPCG 5 7) /\
   State (fst (Next (mkPCG 5 7))) = State (fst (Next (mkPCG 5 7)))) /\
  mkPCG 5 7 = mkPCG 5 7.
Proof.
  assert (H : is_uint64 (State (mkPCG 5 7))) by (unfold is_uint64; simpl; lia).
  split; [auto|].
  exact (Next_state_injective (mkPCG 5 7) (mkPCG 5 7) H H eq_refl eq_refl).
Defined.

Lemma State_Seed g y x :
  State (Seed g y x) =
  wrap64 (wrap64 (wrap64 (2 * (y mod 2^63) + 1) + x) * kMultiplier
          + (2 * (y mod 2^63) + 1)).
Proof.
  unfold Seed, Next. simpl. rewrite shifted_seed, lor_even_1. reflexivity.
Qed.

(** X19: [Seed(y, x)] and [Seed(y', x')] leave the same generator exactly
    when [y] and [y'] agree modulo 2^63 and [x] and [x'] modulo 2^64: bit 63
    of [y] is dropped by the shift, and nothing else of the seeds is. *)
Theorem Seed_equal_iff g g' y x y' x' :
  Seed g y x = Seed g' y' x' <->
  y mod 2^63 = y' mod 2^63 /\ x mod 2^64 = x' mod 2^64.
Proof.
  split.
  - intros E.
    assert (Ei : Inc (Seed g y x) = Inc (Seed g' y' x')) by (rewrite E; reflexivity).
    assert (Es : State (Seed g y x) = State (Seed g' y' x')) by (rewrite E; reflexivity).
    rewrite !Inc_Seed in Ei. assert (Ey : y mod 2^63 = y' mod 2^63) by lia.
    split; [exact Ey|].
    rewrite !State_Seed, <- Ey in Es.
    apply lcg_injective in Es; [|apply wrap64_range..].
    unfold wrap64 in Es.
    apply Z.cong_iff_ex in Es as (n & Hn).
    apply Z.cong_iff_ex. exists n. lia.
  - intros [Ey Ex].
    assert (Ei : Inc (Seed g y x) = Inc (Seed g' y' x'))
      by (rewrite !Inc_Seed, Ey; reflexivity).
    assert (Es : State (Seed g y x) = State (Seed g' y' x')).
    { rewrite !State_Seed, Ey. f_equal. f_equal. f_equal.
      unfold wrap64.
      rewrite <- (Zplus_mod_idemp_r x), <- (Zplus_mod_idemp_r x'), Ex.
      reflexivity. }
    destruct (Seed g y x), (Seed g' y' x'). simpl in *. congruence.
Qed.

End PCGRandomExtra.
